(** * HiwonderRPI: the bus-servo driver of [src/HiwonderBusServo.hpp]

    A shallow embedding of the header-only class [HiwonderBusServo]: the
    frame buffers, the checksum, the busy-wait exchange over the serial
    line and the one-method-per-command catalogue, followed by the
    properties of the protocol engine.

    Conventions of the embedding.
    - Every integer is a [Z]; the conversions that C++ performs when a
      value is stored in a [uint8_t], [uint16_t] or [int16_t] are written
      out ([u8], [u16], [i16]).
    - A [Buffer] is the [std::array<uint8_t,10>] of the source, a list of
      ten bytes read with [!!] and written with [<[i:=v]>]; an access
      outside the array is undefined behaviour in C++ and ends the run in
      the outcome [Undefined].
    - Every [Buffer] of the program is a function-local [static]: one
      object per function, shared by all calls and by all servo objects.
      The type [slot] names these objects and the world carries their
      contents, so that what one call leaves behind is what the next call
      finds.
    - wiringSerial is the external collaborator; [Serial] is a model of
      the line in which bytes arrive in bursts while the driver polls. *)

From stdpp Require Import base decidable option list numbers functions.

Local Open Scope Z_scope.

(** ** Fixed-width integers *)

(** [static_cast<uint8_t>] *)
Definition u8 (x : Z) : Z := x mod 256.
(** [static_cast<uint16_t>] *)
Definition u16 (x : Z) : Z := x mod 65536.
(** [static_cast<int8_t>] *)
Definition i8 (x : Z) : Z := (x + 128) mod 256 - 128.
(** [static_cast<int16_t>] *)
Definition i16 (x : Z) : Z := (x + 32768) mod 65536 - 32768.

Definition is_int16 (x : Z) : Prop := -32768 <= x <= 32767.

(** ** Data model *)

Abbreviation Buffer := (list Z) (only parsing).

Record MoveTime := { position : Z; time : Z }.

Record Limit := { minLimit : Z; maxLimit : Z }.

(** The enumerations are [enum class ... : uint8_t]: every byte is a value
    of the type, two of them carry a name. *)
Module Mode.
Record t := of_u8 { to_u8 : Z }.
Definition Servo : t := of_u8 0.
Definition Motor : t := of_u8 1.
End Mode.

Module LoadMode.
Record t := of_u8 { to_u8 : Z }.
Definition Unload : t := of_u8 0.
Definition Load : t := of_u8 1.
End LoadMode.

Module PowerLed.
Record t := of_u8 { to_u8 : Z }.
Definition Off : t := of_u8 1.
Definition On : t := of_u8 0.
End PowerLed.

Record ModeRead := { mode : Mode.t; speed : Z }.

Record LedError := { overTemperature : bool; overVoltage : bool; stall : bool }.

(** The servo object: its [id] (an [int] member initialised from a
    [uint8_t]); the device behind [fd] is the one line of the world. *)
Record HiwonderBusServo := { id : Z }.

Definition FrameHeader : Z := 0x55.
Definition _pholder : Z := 0.

(** ** Pure helpers *)

Definition getLowByte (in_ : Z) : Z := u8 in_.

Definition getHighByte (in_ : Z) : Z := u8 (Z.shiftr in_ 8).

(** The loop of [checksum]: [for (i; i < buf[3]+2u; ++i) temp += buf[i]],
    with [n] the number of turns left; [temp] is a [uint16_t]. *)
Fixpoint checksum_loop (buf : Buffer) (i n : nat) (temp : Z) : option Z :=
  match n with
  | O => Some temp
  | S n' => b ← buf !! i; checksum_loop buf (S i) n' (u16 (temp + b))
  end.

Definition checksum (buf : Buffer) : option Z :=
  len ← buf !! 3%nat;
  temp ← checksum_loop buf 2 (Z.to_nat len) 0;
  let temp := u16 (Z.lnot temp) in
  Some (getLowByte temp).

(** [||] evaluates left to right and stops at the first true operand. *)
Definition checkMessage (buf : Buffer) (commandId : Z) (expectedSize : Z) : option bool :=
  b3 ← buf !! 3%nat;
  if negb (b3 =? expectedSize) then Some false else
  b4 ← buf !! 4%nat;
  if negb (b4 =? commandId) then Some false else
  last ← buf !! Z.to_nat (expectedSize + 2);
  c ← checksum buf;
  if negb (last =? c) then Some false else Some true.

(** ** The serial line

    [written]: the bytes handed to [serialPutchar], oldest first.
    [rxq]: the bytes that have arrived and were not read yet.
    [wire]: the bursts still on their way; one burst lands each time the
    driver asks [serialDataAvail]. *)
Record Serial := { written : list Z; rxq : list Z; wire : list (list Z) }.

Definition land_burst (s : Serial) : Serial :=
  match wire s with
  | [] => s
  | b :: rest => {| written := written s; rxq := rxq s ++ b; wire := rest |}
  end.

Definition poll (s : Serial) : Z * Serial :=
  let s' := land_burst s in (Z.of_nat (length (rxq s')), s').

(** What the next [n] calls of [serialDataAvail] report when nothing is
    read or flushed in between. *)
Fixpoint polls (n : nat) (s : Serial) : list Z :=
  match n with
  | O => []
  | S n' => fst (poll s) :: polls n' (snd (poll s))
  end.

(** ** The static buffers and the world *)

Inductive slot :=
  | getMessage_res
  | moveTimeWrite_buf | moveTimeRead_buf | moveTimeWaitWrite_buf
  | moveTimeWaitRead_buf | moveStart_buf | moveStop_buf | idWrite_buf
  | idRead_buf | angleOffsetAdjust_buf | angleOffsetWrite_buf
  | angleOffsetRead_buf | angleLimitWrite_buf | angleLimitRead_buf
  | vinLimitWrite_buf | vinLimitRead_buf | tempMaxLimitWrite_buf
  | tempMaxLimitRead_buf | tempRead_buf | vinRead_buf | posRead_buf
  | servoOrMotorModeWrite_buf | servoOrMotorModeRead_buf
  | loadOrUnloadWrite_buf | loadOrUnloadRead_buf | ledCtrlWrite_buf
  | ledCtrlRead_buf | ledErrorWrite_buf | ledErrorRead_buf.

#[global] Instance slot_eq_dec : EqDecision slot.
Proof. solve_decision. Defined.

Record World := { statics : slot -> Buffer; line : Serial }.

(** The three [std::runtime_error]s of the exchange: the message header
    did not come, the message content did not come, the message is
    corrupted. *)
Inductive exn := HeaderTimeout | PayloadTimeout | CorruptedMessage.

(** How a call ends: it returns, it throws, or it reaches an access outside
    an array in world [w] (what follows that access is not defined). *)
Inductive outcome (A : Type) :=
  | Done (a : A) (w : World)
  | Throw (e : exn) (w : World)
  | Undefined (w : World).
Arguments Done {A} a w.
Arguments Throw {A} e w.
Arguments Undefined {A} w.

Definition M (A : Type) : Type := World -> outcome A.

#[global] Instance M_ret : MRet M := fun A a w => Done a w.
#[global] Instance M_bind : MBind M := fun A B f m w =>
  match m w with
  | Done a w' => f a w'
  | Throw e w' => Throw e w'
  | Undefined w' => Undefined w'
  end.

Definition throw {A} (e : exn) : M A := fun w => Throw e w.

Definition world_of {A} (o : outcome A) : World :=
  match o with Done _ w | Throw _ w | Undefined w => w end.

(** [buf[i]] as an rvalue. *)
Definition load (buf : slot) (i : nat) : M Z := fun w =>
  match statics w buf !! i with
  | Some v => Done v w
  | None => Undefined w
  end.

(** [buf[i] = v]; the element type is [uint8_t]. *)
Definition store (buf : slot) (i : nat) (v : Z) : M unit := fun w =>
  if (i <? length (statics w buf))%nat
  then Done tt {| statics := <[buf := <[i := u8 v]> (statics w buf)]> (statics w);
                  line := line w |}
  else Undefined w.

(** A pure function applied to the object behind a [const Buffer&]. *)
Definition on_buffer {A} (f : Buffer -> option A) (buf : slot) : M A := fun w =>
  match f (statics w buf) with
  | Some a => Done a w
  | None => Undefined w
  end.

Definition serialPutchar (c : Z) : M unit := fun w =>
  Done tt {| statics := statics w;
             line := {| written := written (line w) ++ [c];
                        rxq := rxq (line w); wire := wire (line w) |} |}.

Definition serialDataAvail : M Z := fun w =>
  Done (fst (poll (line w))) {| statics := statics w; line := snd (poll (line w)) |}.

(** [serialGetchar] gives -1 when nothing arrives. *)
Definition serialGetchar : M Z := fun w =>
  match rxq (line w) with
  | [] => Done (-1) w
  | c :: rest =>
      Done c {| statics := statics w;
                line := {| written := written (line w); rxq := rest;
                           wire := wire (line w) |} |}
  end.

(** [serialFlush] drops what was received and not read. *)
Definition serialFlush : M unit := fun w =>
  Done tt {| statics := statics w;
             line := {| written := written (line w); rxq := [];
                        wire := wire (line w) |} |}.

(** ** Sending and receiving *)

(** [for (i=0; i < buf[3]+3u; ++i) serialPutchar(fd, buf[i])]; the body
    does not write [buf], so the bound is the same at every turn. *)
Fixpoint sendBuf_loop (buf : slot) (i n : nat) : M unit :=
  match n with
  | O => mret tt
  | S n' => c ← load buf i; serialPutchar c;; sendBuf_loop buf (S i) n'
  end.

Definition sendBuf (buf : slot) : M unit :=
  len ← load buf 3;
  sendBuf_loop buf 0 (Z.to_nat (len + 3)).

Definition MaxBusyLoop : nat := 20000.

(** [for (i=0; i<MaxBusyLoop && serialDataAvail(fd)<need; ++i) continue;]
    with [n] the turns left: no poll is made once the bound is reached. *)
Fixpoint busyLoop (n : nat) (need : Z) : M unit :=
  match n with
  | O => mret tt
  | S n' => a ← serialDataAvail; if a <? need then busyLoop n' need else mret tt
  end.

(** [for (i=0; i < res[3]-1u; ++i) res[i+4] = serialGetchar(fd)]: [last] is
    the unsigned bound and [room] counts the elements of [res] from index
    [i+4] on; with none left the store is outside the array. *)
Fixpoint getMessage_fill (room : nat) (i : nat) (last : Z) : M unit :=
  if Z.of_nat i <? last then
    match room with
    | O => fun w => Undefined w
    | S room' =>
        c ← serialGetchar;
        store getMessage_res (i + 4) c;;
        getMessage_fill room' (S i) last
    end
  else mret tt.

Definition getMessage : M slot :=
  let res := getMessage_res in
  busyLoop MaxBusyLoop 4;;
  a ← serialDataAvail;
  if a <? 4 then
    store res 2 0;; store res 3 0;;
    throw HeaderTimeout
  else
  c0 ← serialGetchar; store res 0 c0;;
  c1 ← serialGetchar; store res 1 c1;;
  c2 ← serialGetchar; store res 2 c2;;
  c3 ← serialGetchar; store res 3 c3;;
  len ← load res 3;
  busyLoop MaxBusyLoop (len - 1);;
  a ← serialDataAvail;
  len ← load res 3;
  if a <? len - 1 then
    store res 2 0;; store res 3 0;;
    throw PayloadTimeout
  else
  len ← load res 3;
  getMessage_fill 6 0 ((len - 1) mod 2 ^ 32);;
  mret res.

Definition genericRead (this : HiwonderBusServo) (buf : slot) (replySize : Z) : M slot :=
  store buf 2 (id this);;
  len ← load buf 3;
  c ← on_buffer checksum buf;
  store buf (Z.to_nat (len + 2)) c;;
  serialFlush;;
  sendBuf buf;;
  res ← getMessage;
  cmd ← load buf 4;
  ok ← on_buffer (fun b => checkMessage b cmd replySize) res;
  if negb ok then throw CorruptedMessage else
  mret res.

(** ** The commands

    Each method owns one [static Buffer buf] that starts as the template
    written in its body (elements not listed are zero) and is filled in
    place at every call. *)

Definition template (size commandId : Z) : Buffer :=
  [FrameHeader; FrameHeader; _pholder; size; commandId;
   _pholder; _pholder; _pholder; _pholder; _pholder].

Definition MoveTimeWriteId : Z := 1.
Definition MoveTimeWriteSize : Z := 7.

Definition moveTimeWrite (this : HiwonderBusServo) (position time : Z) : M unit :=
  let buf := moveTimeWrite_buf in
  let position := if position <? 0 then 0 else position in
  let position := if position >? 1000 then 1000 else position in
  store buf 2 (id this);;
  store buf 5 (getLowByte (u16 position));;
  store buf 6 (getHighByte (u16 position));;
  store buf 7 (getLowByte time);;
  store buf 8 (getHighByte time);;
  c ← on_buffer checksum buf; store buf 9 c;;
  sendBuf buf.

(** [lo + (hi << 8)] *)
Definition word_of (lo hi : Z) : Z := lo + Z.shiftl hi 8.

Definition MoveTimeReadId : Z := 2.
Definition MoveTimeReadSize : Z := 3.
Definition MoveTimeReplySize : Z := 7.

Definition moveTimeRead (this : HiwonderBusServo) : M MoveTime :=
  let buf := moveTimeRead_buf in
  resultBuf ← genericRead this buf MoveTimeReplySize;
  b5 ← load resultBuf 5; b6 ← load resultBuf 6;
  b7 ← load resultBuf 7; b8 ← load resultBuf 8;
  mret {| position := u16 (word_of b5 b6); time := u16 (word_of b7 b8) |}.

Definition MoveTimeWaitWriteId : Z := 7.
Definition MoveTimeWaitWriteSize : Z := 7.

Definition moveTimeWaitWrite (this : HiwonderBusServo) (position time : Z) : M unit :=
  let buf := moveTimeWaitWrite_buf in
  let position := if position <? 0 then 0 else position in
  let position := if position >? 1000 then 1000 else position in
  store buf 2 (id this);;
  store buf 5 (getLowByte (u16 position));;
  store buf 6 (getHighByte (u16 position));;
  store buf 7 (getLowByte time);;
  store buf 8 (getHighByte time);;
  c ← on_buffer checksum buf; store buf 9 c;;
  sendBuf buf.

Definition MoveTimeWaitReadId : Z := 8.
Definition MoveTimeWaitReadSize : Z := 3.
Definition MoveTimeWaitReplySize : Z := 7.

Definition moveTimeWaitRead (this : HiwonderBusServo) : M MoveTime :=
  let buf := moveTimeWaitRead_buf in
  resultBuf ← genericRead this buf MoveTimeWaitReplySize;
  b5 ← load resultBuf 5; b6 ← load resultBuf 6;
  b7 ← load resultBuf 7; b8 ← load resultBuf 8;
  mret {| position := u16 (word_of b5 b6); time := u16 (word_of b7 b8) |}.

Definition MoveStartId : Z := 11.
Definition MoveStartSize : Z := 3.

(** [moveStart] and [moveStop] never set [buf[2]]. *)
Definition moveStart (this : HiwonderBusServo) : M unit :=
  let buf := moveStart_buf in
  c ← on_buffer checksum buf; store buf 5 c;;
  sendBuf buf.

Definition MoveStopId : Z := 12.
Definition MoveStopSize : Z := 3.

Definition moveStop (this : HiwonderBusServo) : M unit :=
  let buf := moveStop_buf in
  c ← on_buffer checksum buf; store buf 5 c;;
  sendBuf buf.

Definition IdWriteId : Z := 13.
Definition IdWriteSize : Z := 4.

Definition idWrite (this : HiwonderBusServo) (newId : Z) : M unit :=
  let buf := idWrite_buf in
  store buf 2 (id this);;
  store buf 5 newId;;
  c ← on_buffer checksum buf; store buf 6 c;;
  sendBuf buf.

Definition idReadId : Z := 14.
Definition idReadSize : Z := 3.
Definition idReplySize : Z := 4.

Definition idRead (this : HiwonderBusServo) : M Z :=
  let buf := idRead_buf in
  store buf 2 254;;
  len ← load buf 3;
  c ← on_buffer checksum buf;
  store buf (Z.to_nat (len + 2)) c;;
  serialFlush;;
  sendBuf buf;;
  res ← getMessage;
  cmd ← load buf 4;
  ok ← on_buffer (fun b => checkMessage b cmd idReplySize) res;
  if negb ok then throw CorruptedMessage else
  load res 5.

Definition AngleOffsetAdjustId : Z := 17.
Definition AngleOffsetAdjustSize : Z := 4.

Definition angleOffsetAdjust (this : HiwonderBusServo) (angleDelta : Z) : M unit :=
  let buf := angleOffsetAdjust_buf in
  store buf 2 (id this);;
  store buf 5 (u8 angleDelta);;
  c ← on_buffer checksum buf; store buf 6 c;;
  sendBuf buf.

Definition AngleOffsetWriteId : Z := 18.
Definition AngleOffsetWriteSize : Z := 3.

Definition angleOffsetWrite (this : HiwonderBusServo) : M unit :=
  let buf := angleOffsetWrite_buf in
  store buf 2 (id this);;
  c ← on_buffer checksum buf; store buf 5 c;;
  sendBuf buf.

Definition AngleOffsetReadId : Z := 19.
Definition AngleOffsetReadSize : Z := 3.
Definition AngleOffsetReplySize : Z := 4.

Definition angleOffsetRead (this : HiwonderBusServo) : M Z :=
  let buf := angleOffsetRead_buf in
  resultBuf ← genericRead this buf AngleOffsetReplySize;
  b5 ← load resultBuf 5;
  mret (i8 b5).

Definition AngleLimitWriteId : Z := 20.
Definition AngleLimitWriteSize : Z := 7.

Definition angleLimitWrite (this : HiwonderBusServo) (minLimit maxLimit : Z) : M unit :=
  let buf := angleLimitWrite_buf in
  let minLimit := Z.max minLimit 0 in
  let minLimit := Z.min minLimit 999 in
  let maxLimit := Z.min maxLimit 1000 in
  let maxLimit := Z.max maxLimit (i16 (minLimit + 1)) in
  store buf 2 (id this);;
  store buf 5 (getLowByte (u16 minLimit));;
  store buf 6 (getHighByte (u16 minLimit));;
  store buf 7 (getLowByte (u16 maxLimit));;
  store buf 8 (getHighByte (u16 maxLimit));;
  c ← on_buffer checksum buf; store buf 9 c;;
  sendBuf buf.

Definition AngleLimitReadId : Z := 21.
Definition AngleLimitReadSize : Z := 3.
Definition AngleLimitReplySize : Z := 7.

Definition angleLimitRead (this : HiwonderBusServo) : M Limit :=
  let buf := angleLimitRead_buf in
  resultBuf ← genericRead this buf AngleLimitReplySize;
  b5 ← load resultBuf 5; b6 ← load resultBuf 6;
  b7 ← load resultBuf 7; b8 ← load resultBuf 8;
  mret {| minLimit := i16 (word_of b5 b6); maxLimit := i16 (word_of b7 b8) |}.

Definition VinLimitWriteId : Z := 22.
Definition VinLimitWriteSize : Z := 7.

Definition vinLimitWrite (this : HiwonderBusServo) (minLimit maxLimit : Z) : M unit :=
  let buf := vinLimitWrite_buf in
  let minLimit := Z.max minLimit 4500 in
  let minLimit := Z.min minLimit 11999 in
  let maxLimit := Z.min maxLimit 12000 in
  let maxLimit := Z.max maxLimit (i16 (minLimit + 1)) in
  store buf 2 (id this);;
  store buf 5 (getLowByte (u16 minLimit));;
  store buf 6 (getHighByte (u16 minLimit));;
  store buf 7 (getLowByte (u16 maxLimit));;
  store buf 8 (getHighByte (u16 maxLimit));;
  c ← on_buffer checksum buf; store buf 9 c;;
  sendBuf buf.

Definition VinLimitReadId : Z := 23.
Definition VinLimitReadSize : Z := 3.
Definition VinLimitReplySize : Z := 7.

Definition vinLimitRead (this : HiwonderBusServo) : M Limit :=
  let buf := vinLimitRead_buf in
  resultBuf ← genericRead this buf VinLimitReplySize;
  b5 ← load resultBuf 5; b6 ← load resultBuf 6;
  b7 ← load resultBuf 7; b8 ← load resultBuf 8;
  mret {| minLimit := i16 (word_of b5 b6); maxLimit := i16 (word_of b7 b8) |}.

Definition TempMaxLimitWriteId : Z := 24.
Definition TempMaxLimitWriteSize : Z := 4.

Definition tempMaxLimitWrite (this : HiwonderBusServo) (maxTemp : Z) : M unit :=
  let buf := tempMaxLimitWrite_buf in
  let maxTemp := Z.max maxTemp 50 in
  let maxTemp := Z.min maxTemp 100 in
  store buf 2 (id this);;
  store buf 5 maxTemp;;
  c ← on_buffer checksum buf; store buf 6 c;;
  sendBuf buf.

Definition TempMaxLimitReadId : Z := 25.
Definition TempMaxLimitReadSize : Z := 3.
Definition TempMaxLimitReplySize : Z := 4.

Definition tempMaxLimitRead (this : HiwonderBusServo) : M Z :=
  let buf := tempMaxLimitRead_buf in
  resultBuf ← genericRead this buf TempMaxLimitReplySize;
  load resultBuf 5.

Definition TempReadId : Z := 26.
Definition TempReadSize : Z := 3.
Definition TempReplySize : Z := 4.

Definition tempRead (this : HiwonderBusServo) : M Z :=
  let buf := tempRead_buf in
  resultBuf ← genericRead this buf TempReplySize;
  load resultBuf 5.

Definition VInReadId : Z := 27.
Definition VInReadSize : Z := 3.
Definition VInReplySize : Z := 5.

Definition vinRead (this : HiwonderBusServo) : M Z :=
  let buf := vinRead_buf in
  resultBuf ← genericRead this buf VInReplySize;
  b5 ← load resultBuf 5; b6 ← load resultBuf 6;
  mret (u16 (word_of b5 b6)).

Definition posReadId : Z := 28.
Definition posReadSize : Z := 3.
Definition posReplySize : Z := 5.

Definition posRead (this : HiwonderBusServo) : M Z :=
  let buf := posRead_buf in
  resultBuf ← genericRead this buf posReplySize;
  b5 ← load resultBuf 5; b6 ← load resultBuf 6;
  mret (i16 (word_of b5 b6)).

Definition ServoOrMotorModeWriteId : Z := 29.
Definition ServoOrMotorModeWriteSize : Z := 7.

Definition servoOrMotorModeWrite (this : HiwonderBusServo) (mode : Mode.t) (speed : Z) : M unit :=
  let buf := servoOrMotorModeWrite_buf in
  let speed := Z.max speed (i16 (-1000)) in
  let speed := Z.min speed 1000 in
  store buf 2 (id this);;
  store buf 5 (Mode.to_u8 mode);;
  store buf 6 0;;
  store buf 7 (getLowByte (u16 speed));;
  store buf 8 (getHighByte (u16 speed));;
  c ← on_buffer checksum buf; store buf 9 c;;
  sendBuf buf.

Definition servoOrMotorModeReadId : Z := 30.
Definition servoOrMotorModeReadSize : Z := 3.
Definition servoOrMotorModeReplySize : Z := 7.

Definition servoOrMotorModeRead (this : HiwonderBusServo) : M ModeRead :=
  let buf := servoOrMotorModeRead_buf in
  resultBuf ← genericRead this buf servoOrMotorModeReplySize;
  b5 ← load resultBuf 5;
  b7 ← load resultBuf 7; b8 ← load resultBuf 8;
  mret {| mode := Mode.of_u8 b5; speed := i16 (word_of b7 b8) |}.

Definition LoadOrUnloadWriteId : Z := 31.
Definition LoadOrUnloadWriteSize : Z := 4.

Definition loadOrUnloadWrite (this : HiwonderBusServo) (loadMode : LoadMode.t) : M unit :=
  let buf := loadOrUnloadWrite_buf in
  store buf 2 (id this);;
  store buf 5 (LoadMode.to_u8 loadMode);;
  c ← on_buffer checksum buf; store buf 6 c;;
  sendBuf buf.

Definition LoadOrUnloadReadId : Z := 32.
Definition LoadOrUnloadReadSize : Z := 3.
Definition LoadOrUnloadReplySize : Z := 4.

Definition loadOrUnloadRead (this : HiwonderBusServo) : M LoadMode.t :=
  let buf := loadOrUnloadRead_buf in
  resultBuf ← genericRead this buf LoadOrUnloadReplySize;
  b5 ← load resultBuf 5;
  mret (LoadMode.of_u8 b5).

Definition LedCtrlWriteId : Z := 33.
Definition LedCtrlWriteSize : Z := 4.

Definition ledCtrlWrite (this : HiwonderBusServo) (powerLed : PowerLed.t) : M unit :=
  let buf := ledCtrlWrite_buf in
  store buf 2 (id this);;
  store buf 5 (PowerLed.to_u8 powerLed);;
  c ← on_buffer checksum buf; store buf 6 c;;
  sendBuf buf.

Definition LedCtrlReadId : Z := 34.
Definition LedCtrlReadSize : Z := 3.
Definition LedCtrlReplySize : Z := 4.

Definition ledCtrlRead (this : HiwonderBusServo) : M PowerLed.t :=
  let buf := ledCtrlRead_buf in
  resultBuf ← genericRead this buf LedCtrlReplySize;
  b5 ← load resultBuf 5;
  mret (PowerLed.of_u8 b5).

Definition LedErrorWriteId : Z := 35.
Definition LedErrorWriteSize : Z := 4.

Definition ledErrorWrite (this : HiwonderBusServo) (overTemperature overVoltage stall : bool) : M unit :=
  let buf := ledErrorWrite_buf in
  store buf 2 (id this);;
  store buf 5 (u8 ((if overTemperature then 0x1 else 0x0)
                   + (if overVoltage then 0x2 else 0x0)
                   + (if stall then 0x4 else 0x0)));;
  c ← on_buffer checksum buf; store buf 6 c;;
  sendBuf buf.

Definition LedErrorReadId : Z := 36.
Definition LedErrorReadSize : Z := 3.
Definition LedErrorReplySize : Z := 4.

(** A [bool] made from an integer is true when the integer is not zero. *)
Definition to_bool (x : Z) : bool := negb (x =? 0).

Definition ledErrorRead (this : HiwonderBusServo) : M LedError :=
  let buf := ledErrorRead_buf in
  resultBuf ← genericRead this buf LedErrorReplySize;
  b5 ← load resultBuf 5;
  mret {| overTemperature := to_bool (Z.land b5 0x1);
          overVoltage := to_bool (Z.land b5 0x2);
          stall := to_bool (Z.land b5 0x4) |}.

(** ** The program as a whole *)

(** The contents of every static buffer before the first call:
    [getMessage]'s [res] has no initialiser and starts as zeros. *)
Definition boot_statics (s : slot) : Buffer :=
  match s with
  | getMessage_res => [0; 0; 0; 0; 0; 0; 0; 0; 0; 0]
  | moveTimeWrite_buf => template MoveTimeWriteSize MoveTimeWriteId
  | moveTimeRead_buf => template MoveTimeReadSize MoveTimeReadId
  | moveTimeWaitWrite_buf => template MoveTimeWaitWriteSize MoveTimeWaitWriteId
  | moveTimeWaitRead_buf => template MoveTimeWaitReadSize MoveTimeWaitReadId
  | moveStart_buf => template MoveStartSize MoveStartId
  | moveStop_buf => template MoveStopSize MoveStopId
  | idWrite_buf => template IdWriteSize IdWriteId
  | idRead_buf => template idReadSize idReadId
  | angleOffsetAdjust_buf => template AngleOffsetAdjustSize AngleOffsetAdjustId
  | angleOffsetWrite_buf => template AngleOffsetWriteSize AngleOffsetWriteId
  | angleOffsetRead_buf => template AngleOffsetReadSize AngleOffsetReadId
  | angleLimitWrite_buf => template AngleLimitWriteSize AngleLimitWriteId
  | angleLimitRead_buf => template AngleLimitReadSize AngleLimitReadId
  | vinLimitWrite_buf => template VinLimitWriteSize VinLimitWriteId
  | vinLimitRead_buf => template VinLimitReadSize VinLimitReadId
  | tempMaxLimitWrite_buf => template TempMaxLimitWriteSize TempMaxLimitWriteId
  | tempMaxLimitRead_buf => template TempMaxLimitReadSize TempMaxLimitReadId
  | tempRead_buf => template TempReadSize TempReadId
  | vinRead_buf => template VInReadSize VInReadId
  | posRead_buf => template posReadSize posReadId
  | servoOrMotorModeWrite_buf => template ServoOrMotorModeWriteSize ServoOrMotorModeWriteId
  | servoOrMotorModeRead_buf => template servoOrMotorModeReadSize servoOrMotorModeReadId
  | loadOrUnloadWrite_buf => template LoadOrUnloadWriteSize LoadOrUnloadWriteId
  | loadOrUnloadRead_buf => template LoadOrUnloadReadSize LoadOrUnloadReadId
  | ledCtrlWrite_buf => template LedCtrlWriteSize LedCtrlWriteId
  | ledCtrlRead_buf => template LedCtrlReadSize LedCtrlReadId
  | ledErrorWrite_buf => template LedErrorWriteSize LedErrorWriteId
  | ledErrorRead_buf => template LedErrorReadSize LedErrorReadId
  end.

(** The world at the start of the program, on line [l]. *)
Definition boot (l : Serial) : World := {| statics := boot_statics; line := l |}.

(** A line on which nothing was written and nothing ever arrives. *)
Definition quiet : Serial := {| written := []; rxq := []; wire := [] |}.

(** One call of a public method, with its arguments. *)
Inductive call :=
  | MoveTimeWrite (position time : Z) | MoveTimeRead
  | MoveTimeWaitWrite (position time : Z) | MoveTimeWaitRead
  | MoveStart | MoveStop
  | IdWrite (newId : Z) | IdRead
  | AngleOffsetAdjust (angle : Z) | AngleOffsetWrite | AngleOffsetRead
  | AngleLimitWrite (minLimit maxLimit : Z) | AngleLimitRead
  | VinLimitWrite (minLimit maxLimit : Z) | VinLimitRead
  | TempMaxLimitWrite (maxTemp : Z) | TempMaxLimitRead
  | TempRead | VinRead | PosRead
  | ServoOrMotorModeWrite (mode : Mode.t) (speed : Z) | ServoOrMotorModeRead
  | LoadOrUnloadWrite (loadMode : LoadMode.t) | LoadOrUnloadRead
  | LedCtrlWrite (powerLed : PowerLed.t) | LedCtrlRead
  | LedErrorWrite (overTemperature overVoltage stall : bool) | LedErrorRead.

(** The value of a call is dropped: what is followed here is the world. *)
Definition forget {A} (m : M A) : M unit := _ ← m; mret tt.

Definition exec (this : HiwonderBusServo) (c : call) : M unit :=
  match c with
  | MoveTimeWrite p t => moveTimeWrite this p t
  | MoveTimeRead => forget (moveTimeRead this)
  | MoveTimeWaitWrite p t => moveTimeWaitWrite this p t
  | MoveTimeWaitRead => forget (moveTimeWaitRead this)
  | MoveStart => moveStart this
  | MoveStop => moveStop this
  | IdWrite n => idWrite this n
  | IdRead => forget (idRead this)
  | AngleOffsetAdjust a => angleOffsetAdjust this a
  | AngleOffsetWrite => angleOffsetWrite this
  | AngleOffsetRead => forget (angleOffsetRead this)
  | AngleLimitWrite a b => angleLimitWrite this a b
  | AngleLimitRead => forget (angleLimitRead this)
  | VinLimitWrite a b => vinLimitWrite this a b
  | VinLimitRead => forget (vinLimitRead this)
  | TempMaxLimitWrite t => tempMaxLimitWrite this t
  | TempMaxLimitRead => forget (tempMaxLimitRead this)
  | TempRead => forget (tempRead this)
  | VinRead => forget (vinRead this)
  | PosRead => forget (posRead this)
  | ServoOrMotorModeWrite m s => servoOrMotorModeWrite this m s
  | ServoOrMotorModeRead => forget (servoOrMotorModeRead this)
  | LoadOrUnloadWrite m => loadOrUnloadWrite this m
  | LoadOrUnloadRead => forget (loadOrUnloadRead this)
  | LedCtrlWrite p => ledCtrlWrite this p
  | LedCtrlRead => forget (ledCtrlRead this)
  | LedErrorWrite a b c => ledErrorWrite this a b c
  | LedErrorRead => forget (ledErrorRead this)
  end.

(** The bytes a computation hands to the line, started in world [w]. *)
Definition sent {A} (m : M A) (w : World) : list Z :=
  drop (length (written (line w))) (written (line (world_of (m w)))).

(** A history of calls made by any number of servo objects.  A thrown
    exception is caught by the caller and the program goes on; nothing
    follows an access outside an array. *)
Fixpoint run (h : list (HiwonderBusServo * call)) (w : World) : option World :=
  match h with
  | [] => Some w
  | (this, c) :: h' =>
      match exec this c w with
      | Undefined _ => None
      | o => run h' (world_of o)
      end
  end.

(** ** The wire format in the words of the specification

    These two definitions follow the specification, not the code: the
    checksum is the low byte of the complement of the sum of the bytes from
    the address through the last payload byte, and a frame is
    [0x55 0x55 address length command payload checksum] with
    [length = 3 + payload bytes]. *)

Definition spec_checksum (bytes : list Z) : Z :=
  Z.land (Z.lnot (foldr Z.add 0 bytes)) 0xFF.

Definition encode (address commandId : Z) (payload : list Z) : list Z :=
  let length_field := 3 + Z.of_nat (length payload) in
  [0x55; 0x55; address; length_field; commandId] ++ payload
  ++ [spec_checksum (address :: length_field :: commandId :: payload)].

(** The bytes of a frame from the address through the last payload byte,
    and its trailing byte, both located by the length field. *)
Definition summed_part (frame : list Z) : list Z :=
  match frame !! 3%nat with
  | Some len => take (Z.to_nat len) (drop 2 frame)
  | None => []
  end.

Definition trailing_byte (frame : list Z) : option Z :=
  len ← frame !! 3%nat; frame !! Z.to_nat (len + 2).

(** The request each call puts on the line, as a function of the servo
    and the arguments alone. *)
Definition clamp (lo hi x : Z) : Z := Z.min (Z.max x lo) hi.

Definition request (this : HiwonderBusServo) (c : call) : list Z :=
  let a := u8 (id this) in
  let lo x := u8 (getLowByte (u16 x)) in
  let hi x := u8 (getHighByte (u16 x)) in
  match c with
  | MoveTimeWrite p t =>
      encode a 1 [lo (clamp 0 1000 p); hi (clamp 0 1000 p);
                  u8 (getLowByte t); u8 (getHighByte t)]
  | MoveTimeRead => encode a 2 []
  | MoveTimeWaitWrite p t =>
      encode a 7 [lo (clamp 0 1000 p); hi (clamp 0 1000 p);
                  u8 (getLowByte t); u8 (getHighByte t)]
  | MoveTimeWaitRead => encode a 8 []
  | MoveStart => encode 0 11 []
  | MoveStop => encode 0 12 []
  | IdWrite n => encode a 13 [u8 n]
  | IdRead => encode 254 14 []
  | AngleOffsetAdjust d => encode a 17 [u8 (u8 d)]
  | AngleOffsetWrite => encode a 18 []
  | AngleOffsetRead => encode a 19 []
  | AngleLimitWrite mn mx =>
      let mn' := clamp 0 999 mn in
      let mx' := Z.max (Z.min mx 1000) (i16 (mn' + 1)) in
      encode a 20 [lo mn'; hi mn'; lo mx'; hi mx']
  | AngleLimitRead => encode a 21 []
  | VinLimitWrite mn mx =>
      let mn' := clamp 4500 11999 mn in
      let mx' := Z.max (Z.min mx 12000) (i16 (mn' + 1)) in
      encode a 22 [lo mn'; hi mn'; lo mx'; hi mx']
  | VinLimitRead => encode a 23 []
  | TempMaxLimitWrite t => encode a 24 [u8 (clamp 50 100 t)]
  | TempMaxLimitRead => encode a 25 []
  | TempRead => encode a 26 []
  | VinRead => encode a 27 []
  | PosRead => encode a 28 []
  | ServoOrMotorModeWrite m s =>
      encode a 29 [u8 (Mode.to_u8 m); 0; lo (clamp (-1000) 1000 s); hi (clamp (-1000) 1000 s)]
  | ServoOrMotorModeRead => encode a 30 []
  | LoadOrUnloadWrite m => encode a 31 [u8 (LoadMode.to_u8 m)]
  | LoadOrUnloadRead => encode a 32 []
  | LedCtrlWrite p => encode a 33 [u8 (PowerLed.to_u8 p)]
  | LedCtrlRead => encode a 34 []
  | LedErrorWrite ot ov st =>
      encode a 35 [Z.b2z ot + 2 * Z.b2z ov + 4 * Z.b2z st]
  | LedErrorRead => encode a 36 []
  end.

Definition is_read (c : call) : bool :=
  match c with
  | MoveTimeRead | MoveTimeWaitRead | IdRead | AngleOffsetRead
  | AngleLimitRead | VinLimitRead | TempMaxLimitRead | TempRead | VinRead
  | PosRead | ServoOrMotorModeRead | LoadOrUnloadRead | LedCtrlRead
  | LedErrorRead => true
  | _ => false
  end.

(** ** What never changes in the static buffers

    No method writes the two header bytes, the length field or the
    command id of its buffer ([moveStart] and [moveStop] do not write the
    address either), and every buffer keeps its ten elements. *)
Definition same_at (i : nat) (b b0 : Buffer) : bool :=
  match b !! i, b0 !! i with
  | Some x, Some y => x =? y
  | _, _ => false
  end.

Definition shaped (s : slot) (b : Buffer) : bool :=
  (length b =? 10)%nat &&
  match s with
  | getMessage_res => true
  | moveStart_buf | moveStop_buf =>
      same_at 0 b (boot_statics s) && same_at 1 b (boot_statics s)
      && same_at 2 b (boot_statics s)
      && same_at 3 b (boot_statics s) && same_at 4 b (boot_statics s)
  | _ =>
      same_at 0 b (boot_statics s) && same_at 1 b (boot_statics s)
      && same_at 3 b (boot_statics s) && same_at 4 b (boot_statics s)
  end.

(** The invariant of the static storage. *)
Definition inv (w : World) : Prop := forall s, shaped s (statics w s) = true.

(** The line as [serialFlush] leaves it. *)
Definition flushed (l : Serial) : Serial :=
  {| written := written l; rxq := []; wire := wire l |}.

(** ** Notions used to state and prove the properties *)

(** The four shapes a writing method takes. *)
Definition write4 (buf : slot) (a v5 v6 v7 v8 : Z) : M unit :=
  store buf 2 a;; store buf 5 v5;; store buf 6 v6;; store buf 7 v7;; store buf 8 v8;;
  c ← on_buffer checksum buf; store buf 9 c;; sendBuf buf.

Definition write1 (buf : slot) (a v5 : Z) : M unit :=
  store buf 2 a;; store buf 5 v5;;
  c ← on_buffer checksum buf; store buf 6 c;; sendBuf buf.

Definition write0 (buf : slot) (a : Z) : M unit :=
  store buf 2 a;;
  c ← on_buffer checksum buf; store buf 5 c;; sendBuf buf.

Definition write_bare (buf : slot) : M unit :=
  c ← on_buffer checksum buf; store buf 5 c;; sendBuf buf.

(** What a method did: it returned, the line got [frame] appended, and of
    the static buffers only [buf] changed, to [after]. *)
Definition emitted (o : outcome unit) (w : World) (buf : slot) (frame after : list Z) : Prop :=
  exists w', o = Done tt w' /\
    line w' = {| written := written (line w) ++ frame;
                 rxq := rxq (line w); wire := wire (line w) |} /\
    (forall s, s <> buf -> statics w' s = statics w s) /\
    statics w' buf = after.

(** [steady m Q]: running [m] writes nothing to the line, leaves every
    static buffer but [getMessage]'s [res] as it was, keeps the size of
    [res], and returns only values that satisfy [Q]. *)
Definition steady {A} (m : M A) (Q : A -> Prop) : Prop := forall w,
  written (line (world_of (m w))) = written (line w) /\
  (forall s, s <> getMessage_res -> statics (world_of (m w)) s = statics w s) /\
  length (statics (world_of (m w)) getMessage_res) = length (statics w getMessage_res) /\
  (forall a w', m w = Done a w' -> Q a).

(** What follows the exchange only reads. *)
Definition stays {A} (m : M A) : Prop := forall w, world_of (m w) = w.

(** The world after a call: [frame] went out, [buf] holds [after], the
    other request buffers are as before and [res] kept its size. *)
Definition effect {A} (o : outcome A) (w : World) (buf : slot) (frame after : list Z) : Prop :=
  written (line (world_of o)) = written (line w) ++ frame /\
  (forall s, s <> buf -> s <> getMessage_res -> statics (world_of o) s = statics w s) /\
  length (statics (world_of o) getMessage_res) = length (statics w getMessage_res) /\
  statics (world_of o) buf = after.

(** The worlds the program can be in: those some history of calls leads
    to, from the start of the program, over some behaviour of the line. *)
Definition reachable (w : World) : Prop := exists h l, run h (boot l) = Some w.

(** The transport reports fewer than [need] bytes at each of the next [n]
    calls of [serialDataAvail]. *)
Definition starved (n : nat) (need : Z) (l : Serial) : bool :=
  forallb (fun a => a <? need) (polls n l).

(** The line after [n] calls of [serialDataAvail]. *)
Fixpoint after_polls (n : nat) (l : Serial) : Serial :=
  match n with
  | O => l
  | S n' => after_polls n' (snd (poll l))
  end.

(** The value a call returned, and the exception it threw. *)
Definition returned {A} (o : outcome A) : option A :=
  match o with Done a _ => Some a | _ => None end.

Definition thrown {A} (o : outcome A) : option exn :=
  match o with Throw e _ => Some e | _ => None end.

(** A line with nothing written or received yet, and [bursts] on their way. *)
Definition arriving (bursts : list (list Z)) : Serial :=
  {| written := []; rxq := []; wire := bursts |}.

(** The world in which address 1 has just called [moveTimeWrite(500, 1000)]. *)
Definition after_move : World :=
  world_of (moveTimeWrite {| id := 1 |} 500 1000 (boot quiet)).

(** A line on which nothing arrives during the [MaxBusyLoop] polls of the
    loop, and a complete reply to [ledCtrlRead] lands at the next poll. *)
Definition late : Serial :=
  arriving (repeat [] MaxBusyLoop ++ [[0x55; 0x55; 1; 4; 34; 0; 0xD8]]).

(** The world after three calls made by two servo objects on the line
    [late]. *)
Definition after_three : World :=
  world_of (exec {| id := 9 |} (LedCtrlWrite PowerLed.Off)
    (world_of (exec {| id := 2 |} LedCtrlRead
       (world_of (exec {| id := 9 |} (MoveTimeWrite 3 77) (boot late)))))).

(** ** Notions used by the further properties *)

Definition is_byte (x : Z) : Prop := 0 <= x <= 255.

Definition is_uint16 (x : Z) : Prop := 0 <= x <= 65535.

Definition is_int8 (x : Z) : Prop := -128 <= x <= 127.

(** The two bytes a 16-bit value is sent as. *)
Definition low_byte (x : Z) : Z := u8 (getLowByte (u16 x)).

Definition high_byte (x : Z) : Z := u8 (getHighByte (u16 x)).

(** [reply] is on its way and lands whole after [k] polls that find nothing
    new, within the bound of the busy loop; nothing follows it. *)
Definition lands (k : nat) (reply : list Z) (l : Serial) : Prop :=
  wire l = repeat [] k ++ [reply] /\ (k <= MaxBusyLoop)%nat.

(** World [w] with other bytes waiting, unread, on the receiving side. *)
Definition with_unread (rx : list Z) (w : World) : World :=
  {| statics := statics w;
     line := {| written := written (line w); rxq := rx; wire := wire (line w) |} |}.

(** The program at its start, on a line where [reply] is there at the first
    poll. *)
Definition answering (reply : list Z) : World := boot (arriving [reply]).

(** * Properties *)

(** ** Arithmetic of the fixed-width conversions *)

Lemma land_255 x : Z.land x 0xFF = x mod 256.
Proof. change 0xFF with (Z.ones 8). now rewrite Z.land_ones by lia. Qed.

Lemma u8_idem x : u8 (u8 x) = u8 x.
Proof. unfold u8. apply Z.mod_mod. lia. Qed.

Lemma u8_spec_checksum l : u8 (spec_checksum l) = spec_checksum l.
Proof. unfold spec_checksum. rewrite land_255. apply u8_idem. Qed.

Lemma u16_low x : u16 x mod 256 = x mod 256.
Proof. unfold u16. Z.div_mod_to_equations. lia. Qed.

Lemma add_low a b c : a mod 256 = b mod 256 -> (a + c) mod 256 = (b + c) mod 256.
Proof. intros H. Z.div_mod_to_equations. lia. Qed.

Lemma low_byte_lnot r s :
  r mod 256 = s mod 256 -> getLowByte (u16 (Z.lnot r)) = Z.land (Z.lnot s) 0xFF.
Proof.
  intros H. rewrite land_255. unfold getLowByte, u8. rewrite u16_low.
  unfold Z.lnot, Z.pred. Z.div_mod_to_equations. lia.
Qed.

(** A 16-bit value split by [getLowByte]/[getHighByte] and put together
    again by [lo + (hi << 8)]. *)
Lemma word_of_bytes x :
  word_of (u8 (getLowByte (u16 x))) (u8 (getHighByte (u16 x))) = u16 x.
Proof.
  unfold word_of, getLowByte, getHighByte. rewrite !u8_idem. unfold u8, u16.
  rewrite Z.shiftl_mul_pow2, Z.shiftr_div_pow2 by lia.
  change (2 ^ 8) with 256. Z.div_mod_to_equations. lia.
Qed.

Lemma i16_u16 x : i16 (u16 x) = i16 x.
Proof. unfold i16, u16. Z.div_mod_to_equations. lia. Qed.

Lemma i16_small x : is_int16 x -> i16 x = x.
Proof. unfold is_int16, i16. intros H. Z.div_mod_to_equations. lia. Qed.

(** ** The checksum loop computes the specified checksum *)

Lemma checksum_loop_sum n : forall (buf : Buffer) i temp,
  (i + n <= length buf)%nat ->
  exists r, checksum_loop buf i n temp = Some r /\
            r mod 256 = (temp + foldr Z.add 0 (take n (drop i buf))) mod 256.
Proof.
  induction n as [|n IH]; intros buf i temp Hlen; cbn [checksum_loop].
  - exists temp. split; [done|]. rewrite take_0. cbn. f_equal. lia.
  - destruct (lookup_lt_is_Some_2 buf i) as [b Hb]; [lia|].
    rewrite Hb. cbn [mbind option_bind].
    destruct (IH buf (S i) (u16 (temp + b))) as (r & Hr & Hmod); [lia|].
    exists r. split; [done|]. rewrite Hmod.
    rewrite (drop_S _ _ _ Hb). cbn [take foldr].
    rewrite Z.add_assoc. apply add_low, u16_low.
Qed.

Lemma checksum_spec (buf : Buffer) len :
  buf !! 3%nat = Some len -> (2 + Z.to_nat len <= length buf)%nat ->
  checksum buf = Some (spec_checksum (summed_part buf)).
Proof.
  intros H3 Hlen. unfold checksum, summed_part. rewrite H3. cbn [mbind option_bind].
  destruct (checksum_loop_sum (Z.to_nat len) buf 2 0) as (r & -> & Hr); [lia|].
  cbn [mbind option_bind]. f_equal. apply low_byte_lnot. rewrite Hr. f_equal.
Qed.

(** ** Symbolic runs of the straight-line part of a method *)

#[local] Arguments u8 : simpl never.
#[local] Arguments u16 : simpl never.
#[local] Arguments i16 : simpl never.
#[local] Arguments getLowByte : simpl never.
#[local] Arguments getHighByte : simpl never.
#[local] Arguments spec_checksum : simpl never.
#[local] Arguments checksum : simpl never.
#[local] Arguments checkMessage : simpl never.
#[local] Arguments MaxBusyLoop : simpl never.
#[local] Arguments busyLoop : simpl never.
#[local] Arguments getMessage : simpl never.
#[local] Arguments store buf i v !w /.
#[local] Arguments load buf i !w /.
#[local] Arguments on_buffer {A} f buf !w /.
#[local] Arguments serialPutchar c !w /.
#[local] Arguments serialFlush !w /.
#[local] Arguments sendBuf buf !w /.
#[local] Arguments throw {A} e w /.

Ltac unbind := cbv [mbind M_bind mret M_ret].
Ltac unbind_in H := cbv [mbind M_bind mret M_ret] in H.

Ltac nat_of_Z :=
  repeat match goal with
  | |- context [Z.to_nat ?z] =>
      let n := eval vm_compute in (Z.to_nat z) in change (Z.to_nat z) with n
  end.

Ltac crank_with H :=
  repeat (progress (unbind; cbn; nat_of_Z; rewrite ?fn_lookup_insert, ?H)).

Ltac use_checksum_spec len :=
  rewrite (checksum_spec _ len) by (first [reflexivity | cbn; lia]).

Ltac close_emitted :=
  eexists; split; [reflexivity|]; cbn [line statics];
  rewrite ?u8_spec_checksum; split;
  [ rewrite <- ?app_assoc; reflexivity
  | split; [ intros s Hs; rewrite ?fn_lookup_insert_ne by congruence; reflexivity
           | rewrite fn_lookup_insert; reflexivity ] ].

Lemma write4_emitted buf a v5 v6 v7 v8 w x c p5 p6 p7 p8 p9 :
  statics w buf = [0x55; 0x55; x; 7; c; p5; p6; p7; p8; p9] ->
  emitted (write4 buf a v5 v6 v7 v8 w) w buf
    (encode (u8 a) c [u8 v5; u8 v6; u8 v7; u8 v8])
    (encode (u8 a) c [u8 v5; u8 v6; u8 v7; u8 v8]).
Proof.
  destruct w as [st ln]; cbn [statics]; intros Hst.
  unfold write4, emitted, encode. crank_with Hst.
  use_checksum_spec 7. crank_with Hst. close_emitted.
Qed.

Lemma write1_emitted buf a v5 w x c p5 p6 p7 p8 p9 :
  statics w buf = [0x55; 0x55; x; 4; c; p5; p6; p7; p8; p9] ->
  emitted (write1 buf a v5 w) w buf
    (encode (u8 a) c [u8 v5]) (encode (u8 a) c [u8 v5] ++ [p7; p8; p9]).
Proof.
  destruct w as [st ln]; cbn [statics]; intros Hst.
  unfold write1, emitted, encode. crank_with Hst.
  use_checksum_spec 4. crank_with Hst. close_emitted.
Qed.

Lemma write0_emitted buf a w x c p5 p6 p7 p8 p9 :
  statics w buf = [0x55; 0x55; x; 3; c; p5; p6; p7; p8; p9] ->
  emitted (write0 buf a w) w buf
    (encode (u8 a) c []) (encode (u8 a) c [] ++ [p6; p7; p8; p9]).
Proof.
  destruct w as [st ln]; cbn [statics]; intros Hst.
  unfold write0, emitted, encode. crank_with Hst.
  use_checksum_spec 3. crank_with Hst. close_emitted.
Qed.

Lemma write_bare_emitted buf w x c p5 p6 p7 p8 p9 :
  statics w buf = [0x55; 0x55; x; 3; c; p5; p6; p7; p8; p9] ->
  emitted (write_bare buf w) w buf
    (encode x c []) (encode x c [] ++ [p6; p7; p8; p9]).
Proof.
  destruct w as [st ln]; cbn [statics]; intros Hst.
  unfold write_bare, emitted, encode. crank_with Hst.
  use_checksum_spec 3. crank_with Hst. close_emitted.
Qed.

(** ** Receiving touches only [res] and the incoming side of the line *)

Create HintDb steady discriminated.

Lemma steady_ret {A} (a : A) (Q : A -> Prop) : Q a -> steady (mret a) Q.
Proof. intros HQ w. cbn. repeat split; auto. intros a' w' [= <- _]. exact HQ. Qed.

Lemma steady_bind {A B} (m : M A) (f : A -> M B) Q1 Q :
  steady m Q1 -> (forall a, Q1 a -> steady (f a) Q) -> steady (m ≫= f) Q.
Proof.
  intros Hm Hf w. unbind. destruct (Hm w) as (Hw & Hs & Hl & Hq).
  destruct (m w) as [a w1|e w1|w1] eqn:E; cbn [world_of] in *.
  - destruct (Hf a (Hq a w1 eq_refl) w1) as (Hw' & Hs' & Hl' & Hq').
    repeat split.
    + congruence.
    + intros s Hne. rewrite Hs' by done. auto.
    + congruence.
    + exact Hq'.
  - repeat split; auto. discriminate.
  - repeat split; auto. discriminate.
Qed.

Lemma steady_throw {A} e (Q : A -> Prop) : steady (throw e) Q.
Proof. intros w. cbn. repeat split; auto. discriminate. Qed.

Lemma steady_undefined {A} (Q : A -> Prop) : steady (fun w => Undefined w) Q.
Proof. intros w. cbn. repeat split; auto. discriminate. Qed.

Lemma steady_load s i : steady (load s i) (fun _ => True).
Proof. intros w. unfold load. destruct (statics w s !! i); cbn; repeat split; auto. Qed.

Lemma steady_on_buffer {A} (f : Buffer -> option A) s : steady (on_buffer f s) (fun _ => True).
Proof. intros w. unfold on_buffer. destruct (f (statics w s)); cbn; repeat split; auto. Qed.

Lemma steady_store i v : steady (store getMessage_res i v) (fun _ => True).
Proof.
  intros w. unfold store. destruct (_ <? _)%nat; cbn; repeat split; auto.
  - intros s Hs. now rewrite fn_lookup_insert_ne.
  - rewrite fn_lookup_insert. apply length_insert.
Qed.

Lemma steady_serialDataAvail : steady serialDataAvail (fun _ => True).
Proof.
  intros w. unfold serialDataAvail, poll, land_burst. cbn.
  destruct (wire (line w)); cbn; repeat split; auto.
Qed.

Lemma steady_serialGetchar : steady serialGetchar (fun _ => True).
Proof. intros w. unfold serialGetchar. destruct (rxq (line w)); cbn; repeat split; auto. Qed.

Lemma steady_if {A} (b : bool) (m1 m2 : M A) Q :
  steady m1 Q -> steady m2 Q -> steady (if b then m1 else m2) Q.
Proof. now destruct b. Qed.

#[local] Hint Resolve steady_throw steady_undefined steady_load steady_on_buffer
  steady_store steady_serialDataAvail steady_serialGetchar : steady.

Ltac steady_step :=
  first [ apply steady_if
        | eapply steady_bind; [solve [eauto with steady] | intros ? _]
        | apply steady_ret
        | solve [eauto with steady] ].

Lemma steady_busyLoop n need : steady (busyLoop n need) (fun _ => True).
Proof.
  induction n as [|n IH]; cbn [busyLoop].
  - now apply steady_ret.
  - eapply steady_bind; [apply steady_serialDataAvail|]. intros a _.
    apply steady_if; [exact IH | now apply steady_ret].
Qed.

Lemma steady_fill room : forall i last, steady (getMessage_fill room i last) (fun _ => True).
Proof.
  induction room as [|room IH]; intros i last; cbn [getMessage_fill];
    (apply steady_if; [|now apply steady_ret]).
  - apply steady_undefined.
  - repeat steady_step.
Qed.

#[local] Hint Resolve steady_busyLoop steady_fill : steady.

Lemma steady_getMessage : steady getMessage (fun r => r = getMessage_res).
Proof. unfold getMessage. repeat steady_step. Qed.

(** ** The exchange of a reading method *)

(** [genericRead] up to the moment the request is on the line, in world
    [wp], and what it makes of the message it then gets. *)
Lemma genericRead_run this buf replySize w x c p5 p6 p7 p8 p9 :
  buf <> getMessage_res ->
  statics w buf = [0x55; 0x55; x; 3; c; p5; p6; p7; p8; p9] ->
  exists wp,
    line wp = {| written := written (line w) ++ encode (u8 (id this)) c [];
                 rxq := []; wire := wire (line w) |} /\
    (forall s, s <> buf -> statics wp s = statics w s) /\
    statics wp buf = encode (u8 (id this)) c [] ++ [p6; p7; p8; p9] /\
    genericRead this buf replySize w =
      (match getMessage wp with
       | Done r wg =>
           match checkMessage (statics wg r) c replySize with
           | Some ok => if negb ok then Throw CorruptedMessage wg else Done r wg
           | None => Undefined wg
           end
       | Throw e wg => Throw e wg
       | Undefined wg => Undefined wg
       end).
Proof.
  destruct w as [st ln]; cbn [statics line]; intros Hbuf Hst.
  unfold genericRead, encode. crank_with Hst.
  use_checksum_spec 3. crank_with Hst.
  match goal with |- context [getMessage ?W] => exists W end.
  cbn [line statics]. rewrite ?u8_spec_checksum.
  split; [|split; [|split]].
  - rewrite <- ?app_assoc. reflexivity.
  - intros s Hs. rewrite ?fn_lookup_insert_ne by congruence. reflexivity.
  - rewrite fn_lookup_insert. reflexivity.
  - match goal with |- context [getMessage ?W] =>
      destruct (steady_getMessage W) as (_ & Hs & _ & _);
      destruct (getMessage W) as [r [stg lng]|e wg|wg]; [|reflexivity..]
    end.
    specialize (Hs buf Hbuf). cbn [world_of statics] in Hs.
    rewrite fn_lookup_insert in Hs.
    cbn [load statics]. rewrite Hs. cbn.
    destruct (checkMessage (stg r) c replySize) as [[|]|]; reflexivity.
Qed.

Lemma stays_ret {A} (a : A) : stays (mret a).
Proof. now intros w. Qed.

Lemma stays_load s i : stays (load s i).
Proof. intros w. unfold load. now destruct (statics w s !! i). Qed.

Lemma stays_bind {A B} (m : M A) (f : A -> M B) :
  stays m -> (forall a, stays (f a)) -> stays (m ≫= f).
Proof.
  intros Hm Hf w. unbind. specialize (Hm w).
  destruct (m w) as [a w1|e w1|w1]; cbn [world_of] in *; subst; auto.
  apply Hf.
Qed.

Create HintDb stays discriminated.
#[local] Hint Resolve stays_ret stays_load : stays.

Ltac stays_tac :=
  intros; repeat first [apply stays_bind; [|intros ?] | solve [auto with stays]].

Lemma world_of_then {A B} (m : M A) (k : A -> M B) w :
  (forall a, stays (k a)) -> world_of ((m ≫= k) w) = world_of (m w).
Proof.
  intros Hk. unbind. destruct (m w) as [a w1|e w1|w1]; cbn [world_of]; auto.
  apply Hk.
Qed.

Lemma throw_then {A B} (m : M A) (k : A -> M B) w e w' :
  m w = Throw e w' -> (m ≫= k) w = Throw e w'.
Proof. intros H. unbind. now rewrite H. Qed.

(** A reading method is [genericRead] followed by a decoder [dec] that
    only loads from the reply. *)
Lemma read_run {A} this buf replySize (dec : slot -> M A) w x c p5 p6 p7 p8 p9 :
  buf <> getMessage_res ->
  statics w buf = [0x55; 0x55; x; 3; c; p5; p6; p7; p8; p9] ->
  (forall r, stays (dec r)) ->
  exists wp,
    line wp = {| written := written (line w) ++ encode (u8 (id this)) c [];
                 rxq := []; wire := wire (line w) |} /\
    (forall s, s <> buf -> statics wp s = statics w s) /\
    statics wp buf = encode (u8 (id this)) c [] ++ [p6; p7; p8; p9] /\
    world_of (forget (genericRead this buf replySize ≫= dec) w) = world_of (getMessage wp) /\
    (forall e wg, getMessage wp = Throw e wg ->
       forget (genericRead this buf replySize ≫= dec) w = Throw e wg).
Proof.
  intros Hbuf Hst Hdec.
  destruct (genericRead_run this buf replySize w _ _ _ _ _ _ _ Hbuf Hst)
    as (wp & Hl & Hs & Hb & Hrun).
  exists wp. repeat (split; [assumption|]). split.
  - unfold forget. rewrite !world_of_then by (auto with stays). rewrite Hrun.
    destruct (getMessage wp) as [r wg|e wg|wg]; [|reflexivity..].
    now destruct (checkMessage _ _ _) as [[|]|].
  - intros e wg Hg. unfold forget. apply throw_then, throw_then.
    now rewrite Hrun, Hg.
Qed.

(** [idRead] repeats the body of [genericRead] with 254 as the address. *)
Lemma idRead_as_genericRead this w :
  idRead this w = (genericRead {| id := 254 |} idRead_buf idReplySize ≫= fun r => load r 5) w.
Proof.
  unfold idRead, genericRead. cbn [id]. unbind.
  repeat match goal with
  | |- match ?o with _ => _ end = _ => destruct o; cbv beta iota; try reflexivity
  | |- (if ?b then _ else _) _ = _ => destruct b; cbv beta iota; try reflexivity
  end.
Qed.

(** ** Every call: what it sends and what it leaves behind *)

Lemma shaped_explicit s b :
  shaped s b = true -> s <> getMessage_res ->
  exists x p5 p6 p7 p8 p9 sz c,
    boot_statics s = template sz c /\
    b = [0x55; 0x55; x; sz; c; p5; p6; p7; p8; p9] /\
    (s = moveStart_buf \/ s = moveStop_buf -> x = 0).
Proof.
  intros H Hs. unfold shaped in H. apply andb_true_iff in H as [Hl H].
  apply Nat.eqb_eq in Hl.
  do 10 (destruct b as [|? b]; [discriminate Hl|]). destruct b; [|discriminate Hl].
  destruct s; try congruence;
  cbv [same_at boot_statics template lookup list_lookup] in H;
  repeat (apply andb_true_iff in H as [H ?]);
  repeat match goal with H : (_ =? _) = true |- _ => apply Z.eqb_eq in H; subst end;
  do 8 eexists; (split; [reflexivity|split; [reflexivity|]]);
  intros [?|?]; first [discriminate | reflexivity].
Qed.

Lemma emitted_effect o w buf frame after :
  buf <> getMessage_res -> emitted o w buf frame after -> effect o w buf frame after.
Proof.
  intros Hb (w' & -> & Hl & Hs & Ha). unfold effect. cbn [world_of]. rewrite Hl. cbn.
  repeat split; auto. now rewrite Hs by congruence.
Qed.

Lemma effect_inv {A} (o : outcome A) w buf frame after :
  inv w -> buf <> getMessage_res -> effect o w buf frame after ->
  shaped buf after = true -> inv (world_of o).
Proof.
  intros Hinv Hb (_ & Hs & Hl & Ha) Hshaped s.
  destruct (decide (s = buf)) as [->|Hne]; [now rewrite Ha|].
  destruct (decide (s = getMessage_res)) as [->|Hres].
  - specialize (Hinv getMessage_res). unfold shaped in *. now rewrite Hl.
  - rewrite Hs by done. apply Hinv.
Qed.

Lemma read_effect {A} this buf replySize (dec : slot -> M A) w x c p5 p6 p7 p8 p9 :
  buf <> getMessage_res ->
  statics w buf = [0x55; 0x55; x; 3; c; p5; p6; p7; p8; p9] ->
  (forall r, stays (dec r)) ->
  effect (forget (genericRead this buf replySize ≫= dec) w) w buf
    (encode (u8 (id this)) c []) (encode (u8 (id this)) c [] ++ [p6; p7; p8; p9]).
Proof.
  intros Hbuf Hst Hdec.
  destruct (read_run this buf replySize dec w _ _ _ _ _ _ _ Hbuf Hst Hdec)
    as (wp & Hl & Hs & Hb & Hw0 & _).
  destruct (steady_getMessage wp) as (Hw & Hs' & Hl' & _).
  unfold effect. rewrite !Hw0, Hw, Hl. cbn [written]. split; [done|]. split; [|split].
  - intros s Hne Hres. rewrite Hs' by done. now apply Hs.
  - rewrite Hl'. now rewrite Hs by congruence.
  - now rewrite Hs' by done.
Qed.

Lemma clamp_if p :
  (if (if p <? 0 then 0 else p) >? 1000 then 1000 else if p <? 0 then 0 else p)
  = clamp 0 1000 p.
Proof.
  unfold clamp. destruct (Z.ltb_spec p 0).
  - change (0 >? 1000) with false. cbv beta iota. lia.
  - rewrite Z.gtb_ltb. destruct (Z.ltb_spec 1000 p); lia.
Qed.

Ltac explicit_buffer Hinv slot Hst :=
  let H := fresh "H" in let Hb := fresh "Hb" in let Hx := fresh "Hx" in
  pose proof (Hinv slot) as H;
  apply shaped_explicit in H as (? & ? & ? & ? & ? & ? & ? & ? & Hb & Hst & Hx);
  [|discriminate];
  cbv [boot_statics template] in Hb; injection Hb as <- <-;
  try (rewrite Hx in Hst by (first [now left | now right])); clear Hx.

Lemma forget_ext {A} (m m' : M A) w : m w = m' w -> forget m w = forget m' w.
Proof. intros H. unfold forget. unbind. now rewrite H. Qed.

Ltac writing lem slot Hinv :=
  let Hst := fresh "Hst" in
  explicit_buffer Hinv slot Hst;
  eexists slot, _, _; split; [discriminate|]; split; [eapply lem; exact Hst|].

Ltac reading slot Hinv :=
  let Hst := fresh "Hst" in
  explicit_buffer Hinv slot Hst;
  eexists slot, _, _; split; [discriminate|]; split;
  [ eapply read_effect; [discriminate | exact Hst | stays_tac] | ].

Lemma write_call_emitted this c w :
  inv w -> is_read c = false ->
  exists buf frame after,
    buf <> getMessage_res /\
    emitted (exec this c w) w buf frame after /\
    frame = request this c /\ shaped buf after = true.
Proof.
  intros Hinv Hc. destruct c; try discriminate Hc; cbn [exec].
  - writing write4_emitted moveTimeWrite_buf Hinv.
    split; [|reflexivity]. cbn [request]. now rewrite !clamp_if.
  - writing write4_emitted moveTimeWaitWrite_buf Hinv.
    split; [|reflexivity]. cbn [request]. now rewrite !clamp_if.
  - writing write_bare_emitted moveStart_buf Hinv. split; reflexivity.
  - writing write_bare_emitted moveStop_buf Hinv. split; reflexivity.
  - writing write1_emitted idWrite_buf Hinv. split; reflexivity.
  - writing write1_emitted angleOffsetAdjust_buf Hinv. split; reflexivity.
  - writing write0_emitted angleOffsetWrite_buf Hinv. split; reflexivity.
  - writing write4_emitted angleLimitWrite_buf Hinv. split; reflexivity.
  - writing write4_emitted vinLimitWrite_buf Hinv. split; reflexivity.
  - writing write1_emitted tempMaxLimitWrite_buf Hinv. split; reflexivity.
  - writing write4_emitted servoOrMotorModeWrite_buf Hinv. split; reflexivity.
  - writing write1_emitted loadOrUnloadWrite_buf Hinv. split; reflexivity.
  - writing write1_emitted ledCtrlWrite_buf Hinv. split; reflexivity.
  - writing write1_emitted ledErrorWrite_buf Hinv.
    split; [|reflexivity].
    match goal with |- context [LedErrorWrite ?a ?b ?c] => now destruct a, b, c end.
Qed.

Lemma read_call_effect this c w :
  inv w -> is_read c = true ->
  exists buf frame after,
    buf <> getMessage_res /\
    effect (exec this c w) w buf frame after /\
    frame = request this c /\ shaped buf after = true.
Proof.
  intros Hinv Hc. destruct c; try discriminate Hc; cbn [exec].
  - reading moveTimeRead_buf Hinv. split; reflexivity.
  - reading moveTimeWaitRead_buf Hinv. split; reflexivity.
  - rewrite (forget_ext _ _ _ (idRead_as_genericRead this w)).
    reading idRead_buf Hinv. split; reflexivity.
  - reading angleOffsetRead_buf Hinv. split; reflexivity.
  - reading angleLimitRead_buf Hinv. split; reflexivity.
  - reading vinLimitRead_buf Hinv. split; reflexivity.
  - reading tempMaxLimitRead_buf Hinv. split; reflexivity.
  - reading tempRead_buf Hinv. split; reflexivity.
  - reading vinRead_buf Hinv. split; reflexivity.
  - reading posRead_buf Hinv. split; reflexivity.
  - reading servoOrMotorModeRead_buf Hinv. split; reflexivity.
  - reading loadOrUnloadRead_buf Hinv. split; reflexivity.
  - reading ledCtrlRead_buf Hinv. split; reflexivity.
  - reading ledErrorRead_buf Hinv. split; reflexivity.
Qed.

Lemma exec_effect this c w :
  inv w ->
  exists buf frame after,
    buf <> getMessage_res /\
    effect (exec this c w) w buf frame after /\
    frame = request this c /\ shaped buf after = true.
Proof.
  intros Hinv. destruct (is_read c) eqn:Hc.
  - now apply read_call_effect.
  - destruct (write_call_emitted this c w Hinv Hc) as (buf & f & a & Hb & He & Hf & Hs).
    exists buf, f, a. auto using emitted_effect.
Qed.

Lemma write_call_returns this c w :
  inv w -> is_read c = false -> exists w', exec this c w = Done tt w'.
Proof.
  intros Hinv Hc.
  destruct (write_call_emitted this c w Hinv Hc) as (_ & _ & _ & _ & (w' & Ho & _) & _).
  now exists w'.
Qed.

Lemma exec_written this c w :
  inv w ->
  written (line (world_of (exec this c w))) = written (line w) ++ request this c.
Proof.
  intros Hinv. destruct (exec_effect this c w Hinv) as (buf & f & a & _ & (Hw & _) & <- & _).
  exact Hw.
Qed.

Lemma exec_sent this c w : inv w -> sent (exec this c) w = request this c.
Proof. intros Hinv. unfold sent. rewrite exec_written by done. apply drop_app_length. Qed.

Lemma exec_inv this c w : inv w -> inv (world_of (exec this c w)).
Proof.
  intros Hinv. destruct (exec_effect this c w Hinv) as (buf & f & a & Hb & He & _ & Hs).
  eapply effect_inv; eauto.
Qed.

Lemma inv_boot l : inv (boot l).
Proof. intros s. now destruct s. Qed.

Lemma run_inv h : forall w w', inv w -> run h w = Some w' -> inv w'.
Proof.
  induction h as [|[this c] h IH]; intros w w' Hinv; cbn [run].
  - now intros [= <-].
  - pose proof (exec_inv this c w Hinv) as Hinv'.
    destruct (exec this c w); [|apply IH; exact Hinv'|discriminate].
    apply IH; exact Hinv'.
Qed.

(** ** Reachable worlds *)

Lemma reachable_inv w : reachable w -> inv w.
Proof. intros (h & l & Hrun). eapply run_inv; [apply inv_boot|exact Hrun]. Qed.

Lemma reachable_boot l : reachable (boot l).
Proof. now exists [], l. Qed.

(** ** Waiting for the header *)

Lemma starved_S n need l :
  starved (S n) need l = (fst (poll l) <? need) && starved n need (snd (poll l)).
Proof. reflexivity. Qed.

Lemma starved_last n : forall need l,
  starved (S n) need l = starved n need l && (fst (poll (after_polls n l)) <? need).
Proof.
  induction n as [|n IH]; intros need l.
  - cbn. now rewrite andb_true_r.
  - rewrite starved_S, IH, (starved_S n). cbn [after_polls]. now rewrite andb_assoc.
Qed.

Lemma polls_ext n : forall l l',
  rxq l = rxq l' -> wire l = wire l' -> polls n l = polls n l'.
Proof.
  induction n as [|n IH]; intros l l' Hr Hw; [done|].
  cbn [polls]. 
  assert (fst (poll l) = fst (poll l') /\ rxq (snd (poll l)) = rxq (snd (poll l'))
          /\ wire (snd (poll l)) = wire (snd (poll l'))) as (-> & Hr' & Hw').
  { destruct l, l'; cbn in Hr, Hw; subst. unfold poll, land_burst; cbn.
    now destruct wire1. }
  f_equal. now apply IH.
Qed.

Lemma busyLoop_S n need :
  busyLoop (S n) need
  = (a ← serialDataAvail; if a <? need then busyLoop n need else mret tt).
Proof. reflexivity. Qed.

Lemma busyLoop_starved n need : forall w,
  starved n need (line w) = true ->
  busyLoop n need w = Done tt {| statics := statics w; line := after_polls n (line w) |}.
Proof.
  induction n as [|n IH]; intros [st ln] H.
  - reflexivity.
  - rewrite starved_S in H. apply andb_true_iff in H as [Ha Hn].
    rewrite busyLoop_S. unbind. unfold serialDataAvail. cbn [line statics] in *.
    rewrite Ha. rewrite IH by exact Hn. reflexivity.
Qed.

Lemma getMessage_header_timeout w :
  length (statics w getMessage_res) = 10%nat ->
  starved (S MaxBusyLoop) 4 (line w) = true ->
  exists w', getMessage w = Throw HeaderTimeout w'.
Proof.
  intros Hlen H. rewrite starved_last in H. apply andb_true_iff in H as [Hn Ha].
  unfold getMessage. unbind. rewrite busyLoop_starved by exact Hn.
  unfold serialDataAvail. cbn [line statics]. rewrite Ha.
  unfold store. cbn [line statics]. rewrite Hlen. cbn [Nat.ltb Nat.leb].
  cbn [line statics].
  rewrite fn_lookup_insert, length_insert, Hlen. cbn [Nat.ltb Nat.leb].
  eexists. reflexivity.
Qed.

(** A reading call, up to the moment its request is on the line. *)
Lemma read_throws {A} this buf replySize (dec : slot -> M A) w x c p5 p6 p7 p8 p9 :
  buf <> getMessage_res ->
  statics w buf = [0x55; 0x55; x; 3; c; p5; p6; p7; p8; p9] ->
  (forall r, stays (dec r)) ->
  length (statics w getMessage_res) = 10%nat ->
  exists wp,
    rxq (line wp) = [] /\ wire (line wp) = wire (line w) /\
    length (statics wp getMessage_res) = 10%nat /\
    (forall e wg, getMessage wp = Throw e wg ->
       forget (genericRead this buf replySize ≫= dec) w = Throw e wg).
Proof.
  intros Hbuf Hst Hdec Hres.
  destruct (read_run this buf replySize dec w _ _ _ _ _ _ _ Hbuf Hst Hdec)
    as (wp & Hl & Hs & _ & _ & Ht).
  exists wp. rewrite Hl, Hs by congruence. auto.
Qed.

Ltac reading_throws Hinv slot Hres :=
  let Hst := fresh "Hst" in
  explicit_buffer Hinv slot Hst;
  eapply read_throws; [discriminate | exact Hst | stays_tac | exact Hres].

Lemma read_call_run this c w :
  inv w -> is_read c = true ->
  exists wp,
    rxq (line wp) = [] /\ wire (line wp) = wire (line w) /\
    length (statics wp getMessage_res) = 10%nat /\
    (forall e wg, getMessage wp = Throw e wg -> exec this c w = Throw e wg).
Proof.
  intros Hinv Hc.
  assert (Hres : length (statics w getMessage_res) = 10%nat).
  { specialize (Hinv getMessage_res). unfold shaped in Hinv.
    rewrite andb_true_r in Hinv. now apply Nat.eqb_eq in Hinv. }
  destruct c; try discriminate Hc; cbn [exec].
  - reading_throws Hinv moveTimeRead_buf Hres.
  - reading_throws Hinv moveTimeWaitRead_buf Hres.
  - rewrite (forget_ext _ _ _ (idRead_as_genericRead this w)).
    reading_throws Hinv idRead_buf Hres.
  - reading_throws Hinv angleOffsetRead_buf Hres.
  - reading_throws Hinv angleLimitRead_buf Hres.
  - reading_throws Hinv vinLimitRead_buf Hres.
  - reading_throws Hinv tempMaxLimitRead_buf Hres.
  - reading_throws Hinv tempRead_buf Hres.
  - reading_throws Hinv vinRead_buf Hres.
  - reading_throws Hinv posRead_buf Hres.
  - reading_throws Hinv servoOrMotorModeRead_buf Hres.
  - reading_throws Hinv loadOrUnloadRead_buf Hres.
  - reading_throws Hinv ledCtrlRead_buf Hres.
  - reading_throws Hinv ledErrorRead_buf Hres.
Qed.

Lemma read_call_header_timeout this c w :
  inv w -> is_read c = true ->
  starved (S MaxBusyLoop) 4 (flushed (line w)) = true ->
  exists w', exec this c w = Throw HeaderTimeout w'.
Proof.
  intros Hinv Hc Hstarved.
  destruct (read_call_run this c w Hinv Hc) as (wp & Hr & Hw & Hl & Ht).
  destruct (getMessage_header_timeout wp Hl) as (w' & Hg).
  - unfold starved in *. now rewrite (polls_ext _ _ (flushed (line w))).
  - exists w'. now apply Ht.
Qed.

(** ** Small facts used by the claims *)

Lemma sent_forget {A} (m : M A) w : sent (forget m) w = sent m w.
Proof. unfold sent, forget. now rewrite world_of_then by (intros ?; apply stays_ret). Qed.

Lemma encode_length a c p : length (encode a c p) = (length p + 6)%nat.
Proof. unfold encode. cbn [app length]. rewrite length_app. cbn. lia. Qed.

Lemma encode_length_field a c p pad :
  (encode a c p ++ pad) !! 3%nat = Some (3 + Z.of_nat (length p)).
Proof. reflexivity. Qed.

Lemma encode_summed_part a c p pad :
  summed_part (encode a c p ++ pad) = a :: (3 + Z.of_nat (length p)) :: c :: p.
Proof.
  unfold summed_part. rewrite encode_length_field.
  replace (Z.to_nat (3 + Z.of_nat (length p))) with (3 + length p)%nat by lia.
  unfold encode. cbn [app drop take Nat.add]. do 3 f_equal.
  rewrite <- app_assoc. now rewrite take_app_length.
Qed.

Lemma encode_trailing_byte a c p pad :
  trailing_byte (encode a c p ++ pad)
  = Some (spec_checksum (a :: (3 + Z.of_nat (length p)) :: c :: p)).
Proof.
  unfold trailing_byte. rewrite encode_length_field. cbn [mbind option_bind].
  replace (Z.to_nat (3 + Z.of_nat (length p) + 2)) with (5 + length p)%nat by lia.
  unfold encode. rewrite <- !app_assoc.
  rewrite lookup_app_r by (cbn [length]; lia). cbn [length].
  replace (5 + length p - 5)%nat with (length p) by lia.
  rewrite lookup_app_r by lia. now rewrite Nat.sub_diag.
Qed.

Lemma request_is_encode this c : exists a cmd p, request this c = encode a cmd p.
Proof. destruct c; cbn [request]; eauto. Qed.

Lemma sendBuf_loop_sends n : forall buf i w,
  (i + n <= length (statics w buf))%nat ->
  sendBuf_loop buf i n w
  = Done tt {| statics := statics w;
               line := {| written := written (line w) ++ take n (drop i (statics w buf));
                          rxq := rxq (line w); wire := wire (line w) |} |}.
Proof.
  induction n as [|n IH]; intros buf i [st [wr rx wi]] Hlen; cbn [statics line written rxq wire] in *.
  - cbn. now rewrite app_nil_r.
  - destruct (lookup_lt_is_Some_2 (st buf) i) as [b Hb]; [lia|].
    cbn [sendBuf_loop]. unbind. unfold load. cbn [statics]. rewrite Hb.
    unfold serialPutchar. cbn [statics line written rxq wire].
    rewrite IH by (cbn; lia). cbn [statics line written rxq wire].
    rewrite (drop_S _ _ _ Hb). cbn [take]. now rewrite <- app_assoc.
Qed.

Lemma genericRead_Done this buf replySize w x c p5 p6 p7 p8 p9 r w' :
  buf <> getMessage_res ->
  statics w buf = [0x55; 0x55; x; 3; c; p5; p6; p7; p8; p9] ->
  genericRead this buf replySize w = Done r w' ->
  r = getMessage_res /\ checkMessage (statics w' getMessage_res) c replySize = Some true.
Proof.
  intros Hbuf Hst Hrun.
  destruct (genericRead_run this buf replySize w _ _ _ _ _ _ _ Hbuf Hst)
    as (wp & _ & _ & _ & Heq).
  rewrite Heq in Hrun. destruct (steady_getMessage wp) as (_ & _ & _ & Hr).
  destruct (getMessage wp) as [r0 wg|e wg|wg]; try discriminate.
  specialize (Hr r0 wg eq_refl). subst r0.
  destruct (checkMessage _ _ _) as [[|]|] eqn:E; try discriminate.
  injection Hrun as <- <-. auto.
Qed.

Lemma word_roundtrip x :
  is_int16 x ->
  i16 (word_of (u8 (getLowByte (u16 x))) (u8 (getHighByte (u16 x)))) = x.
Proof. intros H. now rewrite word_of_bytes, i16_u16, i16_small. Qed.

Lemma checkMessage_decides (buf : Buffer) commandId expectedSize :
  length buf = 10%nat -> 3 <= expectedSize <= 7 ->
  exists b3 b4 last ck,
    buf !! 3%nat = Some b3 /\ buf !! 4%nat = Some b4 /\
    buf !! Z.to_nat (expectedSize + 2) = Some last /\
    (b3 = expectedSize -> checksum buf = Some ck) /\
    checkMessage buf commandId expectedSize
    = Some ((b3 =? expectedSize) && (b4 =? commandId) && (last =? ck)).
Proof.
  intros Hlen HE.
  destruct (lookup_lt_is_Some_2 buf 3) as [b3 H3]; [lia|].
  destruct (lookup_lt_is_Some_2 buf 4) as [b4 H4]; [lia|].
  destruct (lookup_lt_is_Some_2 buf (Z.to_nat (expectedSize + 2))) as [last Hlast]; [lia|].
  unfold checkMessage. rewrite H3, H4, Hlast. cbn [mbind option_bind].
  destruct (Z.eqb_spec b3 expectedSize) as [->|Hne]; cbn [negb andb].
  - rewrite (checksum_spec buf expectedSize) by (first [assumption | rewrite Hlen; lia]).
    exists expectedSize, b4, last, (spec_checksum (summed_part buf)).
    repeat (split; [done|]). cbn [mbind option_bind]. rewrite Z.eqb_refl.
    destruct (b4 =? commandId); cbn [negb andb]; [|done].
    now destruct (last =? _).
  - exists b3, b4, last, 0. repeat (split; [done|]).
    apply Z.eqb_neq in Hne. now rewrite Hne.
Qed.

(** * The claims of the specification *)

(** C1. A client bound to address 1 that calls [moveTimeWrite(500, 1000)]
    returns after putting exactly the ten bytes
    55 55 01 07 01 F4 01 E8 03 16 on the line, in every world the program
    can reach; 0x16 is the low byte of the complement of
    01+07+01+F4+01+E8+03. *)
Theorem moveTimeWrite_500_1000_bytes w :
  reachable w ->
  (exists w', moveTimeWrite {| id := 1 |} 500 1000 w = Done tt w') /\
  sent (moveTimeWrite {| id := 1 |} 500 1000) w
    = [0x55; 0x55; 0x01; 0x07; 0x01; 0xF4; 0x01; 0xE8; 0x03; 0x16] /\
  0x16 = Z.land (Z.lnot (0x01 + 0x07 + 0x01 + 0xF4 + 0x01 + 0xE8 + 0x03)) 0xFF.
Proof.
  intros Hr. apply reachable_inv in Hr. split; [|split; [|reflexivity]].
  - now apply (write_call_returns {| id := 1 |} (MoveTimeWrite 500 1000)).
  - change (moveTimeWrite {| id := 1 |} 500 1000)
      with (exec {| id := 1 |} (MoveTimeWrite 500 1000)).
    now rewrite exec_sent.
Qed.

Lemma moveTimeWrite_500_1000_bytes_at_boot :
  reachable (boot quiet) /\
  sent (moveTimeWrite {| id := 1 |} 500 1000) (boot quiet)
    = [0x55; 0x55; 0x01; 0x07; 0x01; 0xF4; 0x01; 0xE8; 0x03; 0x16].
Proof.
  assert (H : reachable (boot quiet)) by (exists [], quiet; reflexivity).
  split; [exact H|]. exact (proj1 (proj2 (moveTimeWrite_500_1000_bytes (boot quiet) H))).
Defined.

(** C2. The trailing byte of every frame a call puts on the line, and of
    every message [checkMessage] accepts, is the low byte of the
    complement of the sum of the bytes from the address through the last
    payload byte (the two header bytes and the trailing byte itself are not
    summed; in a request the trailing byte is the last one); and on any buffer whose trailing byte is that value,
    [checksum] computes the trailing byte again. *)
Theorem checksum_of_built_and_accepted_frames :
  (forall this c w, reachable w ->
     let frame := sent (exec this c) w in
     trailing_byte frame = Some (spec_checksum (summed_part frame)) /\
     trailing_byte frame = list.last frame /\
     summed_part frame = take (length frame - 3) (drop 2 frame)) /\
  (forall (buf : Buffer) commandId payloadSize,
     length buf = 10%nat -> 0 <= payloadSize <= 4 ->
     checkMessage buf commandId (payloadSize + 3) = Some true ->
     trailing_byte buf = Some (spec_checksum (summed_part buf))) /\
  (forall (buf : Buffer) len,
     buf !! 3%nat = Some len -> (2 + Z.to_nat len <= length buf)%nat ->
     trailing_byte buf = Some (spec_checksum (summed_part buf)) ->
     checksum buf = trailing_byte buf).
Proof.
  split; [|split].
  - intros this c w Hr frame. subst frame.
    rewrite exec_sent by now apply reachable_inv.
    destruct (request_is_encode this c) as (a & cmd & p & ->).
    rewrite <- (app_nil_r (encode a cmd p)) at 1 2 3 5.
    rewrite encode_trailing_byte, !encode_summed_part. split; [done|].
    split; [unfold encode; now rewrite !app_assoc, last_snoc|].
    rewrite encode_length. unfold encode. cbn [app drop].
    replace (length p + 6 - 3)%nat with (3 + length p)%nat by lia.
    cbn [Nat.add take]. do 3 f_equal. now rewrite take_app_length.
  - intros buf cmd p Hlen Hp Hok.
    destruct (checkMessage_decides buf cmd (p + 3) Hlen) as
      (b3 & b4 & last & ck & H3 & H4 & Hlast & Hck & Heq); [lia|].
    rewrite Heq in Hok. injection Hok as Hok.
    apply andb_true_iff in Hok as [Hok Hl]. apply andb_true_iff in Hok as [Hb3 _].
    apply Z.eqb_eq in Hb3, Hl. subst b3 last.
    specialize (Hck eq_refl).
    rewrite (checksum_spec buf (p + 3)) in Hck by (first [assumption | rewrite Hlen; lia]).
    unfold trailing_byte. rewrite H3. cbn [mbind option_bind]. congruence.
  - intros buf len H3 Hlen Htr. rewrite Htr. now apply (checksum_spec buf len).
Qed.

Lemma checksum_of_built_and_accepted_frames_examples :
  trailing_byte (sent (exec {| id := 1 |} (MoveTimeWrite 500 1000)) (boot quiet)) = Some 0x16 /\
  trailing_byte [0x55; 0x55; 1; 4; 34; 0; 0xD8; 0; 0; 0] = Some 0xD8 /\
  checksum [0x55; 0x55; 1; 4; 34; 0; 0xD8; 0; 0; 0] = Some 0xD8.
Proof.
  destruct checksum_of_built_and_accepted_frames as (Hbuilt & Haccepted & Hagain).
  assert (Hr : reachable (boot quiet)) by (exists [], quiet; reflexivity).
  split; [|split].
  - rewrite (proj1 (Hbuilt {| id := 1 |} (MoveTimeWrite 500 1000) (boot quiet) Hr)).
    vm_compute. reflexivity.
  - rewrite (Haccepted [0x55; 0x55; 1; 4; 34; 0; 0xD8; 0; 0; 0] 34 1);
      [vm_compute; reflexivity | reflexivity | lia | vm_compute; reflexivity].
  - rewrite (Hagain [0x55; 0x55; 1; 4; 34; 0; 0xD8; 0; 0; 0] 4);
      [vm_compute; reflexivity | reflexivity | cbn; lia | vm_compute; reflexivity].
Defined.

(** C3, as the claim states it, fails: the buffer of [moveTimeWrite] holds
    a frame whose length field is 7, and [sendBuf] writes ten bytes, not
    nine. *)
Lemma sendBuf_writes_more_than_length_plus_2 :
  statics after_move moveTimeWrite_buf !! 3%nat = Some 7 /\
  sent (sendBuf moveTimeWrite_buf) after_move
    = [0x55; 0x55; 0x01; 0x07; 0x01; 0xF4; 0x01; 0xE8; 0x03; 0x16] /\
  Z.of_nat (length (sent (sendBuf moveTimeWrite_buf) after_move)) <> 7 + 2.
Proof. vm_compute. repeat split; congruence. Qed.

(** C3, amended. When a buffer holds an encoded frame with length field
    [L], [sendBuf] returns after writing exactly the [L+3] bytes of that
    frame (headers, address, length, command, payload, checksum) to the
    line, in order, starting with the first header byte. *)
Theorem sendBuf_writes_the_whole_frame buf w a c payload pad :
  statics w buf = encode a c payload ++ pad ->
  let len := 3 + Z.of_nat (length payload) in
  statics w buf !! 3%nat = Some len /\
  (exists w', sendBuf buf w = Done tt w') /\
  sent (sendBuf buf) w = encode a c payload /\
  sent (sendBuf buf) w = take (Z.to_nat (len + 3)) (statics w buf) /\
  Z.of_nat (length (sent (sendBuf buf) w)) = len + 3.
Proof.
  intros Hst len. 
  assert (H3 : statics w buf !! 3%nat = Some len) by (rewrite Hst; apply encode_length_field).
  assert (Hn : Z.to_nat (len + 3) = length (encode a c payload))
    by (rewrite encode_length; subst len; lia).
  assert (Hrun : sendBuf buf w
    = Done tt {| statics := statics w;
                 line := {| written := written (line w) ++ encode a c payload;
                            rxq := rxq (line w); wire := wire (line w) |} |}).
  { unfold sendBuf. unbind. unfold load. rewrite H3.
    rewrite sendBuf_loop_sends by (rewrite Hn, Hst, length_app; lia).
    rewrite Hn, Hst, drop_0. now rewrite take_app_length. }
  assert (Hsent : sent (sendBuf buf) w = encode a c payload).
  { unfold sent. rewrite Hrun. cbn [world_of line written]. apply drop_app_length. }
  split; [exact H3|]. split; [eauto|]. split; [exact Hsent|]. split.
  - rewrite Hsent, Hn, Hst. now rewrite take_app_length.
  - rewrite Hsent, encode_length. subst len. lia.
Qed.

Lemma sendBuf_writes_the_whole_frame_after_move :
  statics after_move moveTimeWrite_buf = encode 1 1 [0xF4; 0x01; 0xE8; 0x03] ++ [] /\
  Z.of_nat (length (sent (sendBuf moveTimeWrite_buf) after_move)) = 7 + 3.
Proof.
  assert (H : statics after_move moveTimeWrite_buf
              = encode 1 1 [0xF4; 0x01; 0xE8; 0x03] ++ []) by (vm_compute; reflexivity).
  split; [exact H|].
  exact (proj2 (proj2 (proj2 (proj2
    (sendBuf_writes_the_whole_frame moveTimeWrite_buf after_move 1 1 _ [] H))))).
Defined.

(** C4. On a message buffer and an expected reply of [payloadSize] payload
    bytes (at most the four a [Buffer] can hold), [checkMessage] answers,
    and it answers [false] exactly when the length field is not
    [payloadSize + 3], or the command byte is not the expected one, or the
    trailing byte is not the recomputed checksum; it answers [true] exactly
    when all three match. *)
Theorem checkMessage_rejects_exactly (buf : Buffer) commandId payloadSize :
  length buf = 10%nat -> 0 <= payloadSize <= 4 ->
  let expectedSize := payloadSize + 3 in
  let length_matches := buf !! 3%nat = Some expectedSize in
  let command_matches := buf !! 4%nat = Some commandId in
  let checksum_matches := trailing_byte buf = checksum buf in
  exists ok, checkMessage buf commandId expectedSize = Some ok /\
    (ok = false <-> ~ length_matches \/ ~ command_matches \/ ~ checksum_matches) /\
    (ok = true <-> length_matches /\ command_matches /\ checksum_matches).
Proof.
  intros Hlen Hp E Hl Hc Hs. subst Hl Hc Hs.
  destruct (checkMessage_decides buf commandId E Hlen) as
    (b3 & b4 & last & ck & H3 & H4 & Hlast & Hck & Heq); [subst E; lia|].
  eexists. split; [exact Heq|]. unfold trailing_byte. rewrite H3, H4.
  cbn [mbind option_bind].
  destruct (Z.eqb_spec b3 E) as [->|Hne3]; cbn [andb].
  - rewrite Hlast, (Hck eq_refl).
    destruct (Z.eqb_spec b4 commandId) as [->|Hne4]; cbn [andb].
    + destruct (Z.eqb_spec last ck) as [->|Hnel].
      * split; split; try done. intros [H|[H|H]]; now destruct H.
      * split; split; try done.
        -- intros _. right; right. congruence.
        -- intros (_ & _ & [= ?]). done.
    + split; split; try done.
      * intros _. right; left. congruence.
      * intros (_ & [= ?] & _). done.
  - split; split; try done.
    + intros _. left. congruence.
    + intros ([= ?] & _). done.
Qed.

Lemma checkMessage_rejects_exactly_example :
  exists ok, checkMessage [0x55; 0x55; 1; 4; 34; 0; 0xD9; 0; 0; 0] 34 (1 + 3) = Some ok /\ ok = false.
Proof.
  destruct (checkMessage_rejects_exactly [0x55; 0x55; 1; 4; 34; 0; 0xD9; 0; 0; 0] 34 1)
    as (ok & Hok & Hfalse & _); [reflexivity | lia |].
  exists ok. split; [exact Hok|]. apply Hfalse. right; right. vm_compute. congruence.
Defined.

(** C5, as the claim states it, fails: the transport reports fewer than 4
    bytes at every one of the [MaxBusyLoop] turns of the busy loop, and
    [ledCtrlRead] still returns a decoded value instead of throwing,
    because the check after the loop asks [serialDataAvail] once more. *)
Lemma header_arriving_after_the_loop_is_read :
  starved MaxBusyLoop 4 (flushed late) = true /\
  returned (ledCtrlRead {| id := 1 |} (boot late)) = Some PowerLed.On /\
  thrown (ledCtrlRead {| id := 1 |} (boot late)) = None /\
  returned (exec {| id := 1 |} LedCtrlRead (boot late)) = Some tt.
Proof. vm_compute. repeat split; reflexivity. Qed.

(** C5, amended. For every reading call in a reachable world: when the
    transport reports fewer than 4 available bytes at every poll of the
    header wait, that is at the [MaxBusyLoop] polls of the busy loop and
    at the check that follows the loop, the call throws the header-timeout
    error and returns nothing. *)
Theorem read_times_out_on_the_header this c w :
  reachable w -> is_read c = true ->
  starved (S MaxBusyLoop) 4 (flushed (line w)) = true ->
  exists w', exec this c w = Throw HeaderTimeout w' /\
             returned (exec this c w) = None.
Proof.
  intros Hr Hc Hs. apply reachable_inv in Hr.
  destruct (read_call_header_timeout this c w Hr Hc Hs) as (w' & Hw).
  exists w'. now rewrite Hw.
Qed.

Lemma read_times_out_on_the_header_quiet_line :
  reachable (boot quiet) /\
  starved (S MaxBusyLoop) 4 (flushed (line (boot quiet))) = true /\
  exists w', exec {| id := 5 |} PosRead (boot quiet) = Throw HeaderTimeout w' /\
             returned (exec {| id := 5 |} PosRead (boot quiet)) = None.
Proof.
  assert (Hr : reachable (boot quiet)) by (exists [], quiet; reflexivity).
  assert (Hs : starved (S MaxBusyLoop) 4 (flushed (line (boot quiet))) = true)
    by (vm_compute; reflexivity).
  split; [exact Hr|]. split; [exact Hs|].
  exact (read_times_out_on_the_header {| id := 5 |} PosRead (boot quiet) Hr eq_refl Hs).
Defined.

(** C6, as the claim states it, fails: in Servo mode the speed bytes are
    not zero, [servoOrMotorModeWrite(Servo, 500)] sends F4 01. *)
Lemma servo_mode_keeps_the_speed_bytes :
  sent (servoOrMotorModeWrite {| id := 1 |} Mode.Servo 500) (boot quiet)
    = [0x55; 0x55; 0x01; 0x07; 0x1D; 0x00; 0x00; 0xF4; 0x01; 0xE5] /\
  [0xF4; 0x01] <> [0x00; 0x00].
Proof. vm_compute. split; congruence. Qed.

(** C6, amended. For every call [servoOrMotorModeWrite(mode, speed)], in
    either mode, the frame carries the mode byte, a zero reserved byte and
    the speed clamped to [-1000,1000] as a little-endian 16-bit value. *)
Theorem servoOrMotorModeWrite_speed_is_clamped this mode speed w :
  reachable w -> is_int16 speed ->
  exists w' lo hi ck,
    servoOrMotorModeWrite this mode speed w = Done tt w' /\
    sent (servoOrMotorModeWrite this mode speed) w
      = [0x55; 0x55; u8 (id this); 7; 29; u8 (Mode.to_u8 mode); 0; lo; hi; ck] /\
    i16 (word_of lo hi) = clamp (-1000) 1000 speed /\
    -1000 <= i16 (word_of lo hi) <= 1000.
Proof.
  intros Hr Hs. apply reachable_inv in Hr.
  destruct (write_call_returns this (ServoOrMotorModeWrite mode speed) w Hr eq_refl)
    as (w' & Hw').
  pose proof (exec_sent this (ServoOrMotorModeWrite mode speed) w Hr) as Hsent.
  cbn [exec request] in Hw', Hsent.
  eexists w', _, _, _. split; [exact Hw'|]. split; [exact Hsent|].
  assert (Hc : is_int16 (clamp (-1000) 1000 speed)) by (unfold is_int16, clamp in *; lia).
  rewrite (word_roundtrip _ Hc). split; [reflexivity|]. unfold clamp. lia.
Qed.

Lemma servoOrMotorModeWrite_speed_is_clamped_example :
  is_int16 (-32768) /\
  exists w' lo hi ck,
    servoOrMotorModeWrite {| id := 1 |} Mode.Motor (-32768) (boot quiet) = Done tt w' /\
    sent (servoOrMotorModeWrite {| id := 1 |} Mode.Motor (-32768)) (boot quiet)
      = [0x55; 0x55; u8 1; 7; 29; u8 1; 0; lo; hi; ck] /\
    i16 (word_of lo hi) = clamp (-1000) 1000 (-32768) /\
    -1000 <= i16 (word_of lo hi) <= 1000.
Proof.
  assert (Hr : reachable (boot quiet)) by (exists [], quiet; reflexivity).
  assert (Hs : is_int16 (-32768)) by (unfold is_int16; lia).
  split; [exact Hs|].
  exact (servoOrMotorModeWrite_speed_is_clamped {| id := 1 |} Mode.Motor (-32768)
           (boot quiet) Hr Hs).
Defined.

(** C7. For all [int16_t] arguments of [angleLimitWrite], the two limits
    carried by the frame, read back as the servo and [angleLimitRead] read
    them, satisfy [0 <= min <= 999] and [min+1 <= max <= 1000]. *)
Theorem angleLimitWrite_limits_are_clamped this minLimit maxLimit w :
  reachable w -> is_int16 minLimit -> is_int16 maxLimit ->
  exists w' lo1 hi1 lo2 hi2 ck,
    angleLimitWrite this minLimit maxLimit w = Done tt w' /\
    sent (angleLimitWrite this minLimit maxLimit) w
      = [0x55; 0x55; u8 (id this); 7; 20; lo1; hi1; lo2; hi2; ck] /\
    0 <= i16 (word_of lo1 hi1) <= 999 /\
    i16 (word_of lo1 hi1) + 1 <= i16 (word_of lo2 hi2) <= 1000.
Proof.
  intros Hr Hmin Hmax. apply reachable_inv in Hr.
  destruct (write_call_returns this (AngleLimitWrite minLimit maxLimit) w Hr eq_refl)
    as (w' & Hw').
  pose proof (exec_sent this (AngleLimitWrite minLimit maxLimit) w Hr) as Hsent.
  cbn [exec request] in Hw', Hsent.
  eexists w', _, _, _, _, _. split; [exact Hw'|]. split; [exact Hsent|].
  assert (Hc : 0 <= clamp 0 999 minLimit <= 999) by (unfold clamp; lia).
  rewrite (i16_small (clamp 0 999 minLimit + 1)) by (unfold is_int16; lia).
  rewrite !word_roundtrip by (unfold is_int16 in *; lia). lia.
Qed.

Lemma angleLimitWrite_limits_are_clamped_example :
  is_int16 32767 /\ is_int16 (-7) /\
  exists w' lo1 hi1 lo2 hi2 ck,
    angleLimitWrite {| id := 1 |} 32767 (-7) (boot quiet) = Done tt w' /\
    sent (angleLimitWrite {| id := 1 |} 32767 (-7)) (boot quiet)
      = [0x55; 0x55; u8 1; 7; 20; lo1; hi1; lo2; hi2; ck] /\
    0 <= i16 (word_of lo1 hi1) <= 999 /\
    i16 (word_of lo1 hi1) + 1 <= i16 (word_of lo2 hi2) <= 1000.
Proof.
  assert (Hr : reachable (boot quiet)) by (exists [], quiet; reflexivity).
  assert (H1 : is_int16 32767) by (unfold is_int16; lia).
  assert (H2 : is_int16 (-7)) by (unfold is_int16; lia).
  split; [exact H1|]. split; [exact H2|].
  exact (angleLimitWrite_limits_are_clamped {| id := 1 |} 32767 (-7) (boot quiet) Hr H1 H2).
Defined.

(** C8. Whatever address the client is bound to (5, for one), the request
    of [idRead] carries the broadcast address 254 in its address byte: the
    frame is 55 55 FE 03 0E F0. *)
Theorem idRead_targets_broadcast this w :
  reachable w ->
  sent (idRead this) w = [0x55; 0x55; 254; 0x03; 0x0E; 0xF0] /\
  sent (idRead this) w !! 2%nat = Some 254 /\
  sent (idRead {| id := 5 |}) w !! 2%nat = Some 254.
Proof.
  intros Hr. apply reachable_inv in Hr.
  assert (H : forall t, sent (idRead t) w = [0x55; 0x55; 254; 0x03; 0x0E; 0xF0]).
  { intros t. rewrite <- sent_forget. change (forget (idRead t)) with (exec t IdRead).
    now rewrite exec_sent. }
  now rewrite !H.
Qed.

Lemma idRead_targets_broadcast_bound_to_5 :
  reachable after_move /\
  sent (idRead {| id := 5 |}) after_move !! 2%nat = Some 254.
Proof.
  assert (Hr : reachable after_move)
    by (exists [({| id := 1 |}, MoveTimeWrite 500 1000)], quiet; vm_compute; reflexivity).
  split; [exact Hr|].
  exact (proj2 (proj2 (idRead_targets_broadcast {| id := 5 |} after_move Hr))).
Defined.

(** C9, as the claim states it, fails: the frame is not built afresh.  The
    request buffer of [moveTimeWrite] is one static object; after a call
    it holds the address, payload and checksum of that call, and this is
    what the next call, made by any servo object, starts from. *)
Lemma request_buffer_keeps_the_previous_call :
  statics (boot quiet) moveTimeWrite_buf
    = [0x55; 0x55; 0; 7; 1; 0; 0; 0; 0; 0] /\
  statics after_move moveTimeWrite_buf
    = [0x55; 0x55; 0x01; 0x07; 0x01; 0xF4; 0x01; 0xE8; 0x03; 0x16] /\
  statics after_move moveTimeWrite_buf <> statics (boot quiet) moveTimeWrite_buf.
Proof. vm_compute. repeat split; congruence. Qed.

(** C9, amended. Every method fills its own static request buffer in
    place; the buffer outlives the call and is shared by all servo
    objects.  Still, after any two histories of calls (by any servo
    objects, over any behaviour of the line, none of them running outside
    an array), the bytes a call puts on the line are the same: they are a
    function of the arguments of the call and of the bound servo id. *)
Theorem request_depends_only_on_the_call h1 h2 l1 l2 w1 w2 this c :
  run h1 (boot l1) = Some w1 -> run h2 (boot l2) = Some w2 ->
  sent (exec this c) w1 = sent (exec this c) w2 /\
  sent (exec this c) w1 = request this c.
Proof.
  intros H1 H2.
  assert (Hi1 : inv w1) by (apply reachable_inv; now exists h1, l1).
  assert (Hi2 : inv w2) by (apply reachable_inv; now exists h2, l2).
  now rewrite !exec_sent.
Qed.

Lemma request_depends_only_on_the_call_example :
  run [({| id := 1 |}, MoveTimeWrite 500 1000)] (boot quiet) = Some after_move /\
  run [({| id := 9 |}, MoveTimeWrite 3 77); ({| id := 2 |}, LedCtrlRead);
       ({| id := 9 |}, LedCtrlWrite PowerLed.Off)] (boot late) = Some after_three /\
  sent (exec {| id := 4 |} (MoveTimeWrite 1000 0)) after_move
  = sent (exec {| id := 4 |} (MoveTimeWrite 1000 0)) after_three.
Proof.
  assert (H1 : run [({| id := 1 |}, MoveTimeWrite 500 1000)] (boot quiet) = Some after_move)
    by (vm_compute; reflexivity).
  assert (H2 : run [({| id := 9 |}, MoveTimeWrite 3 77); ({| id := 2 |}, LedCtrlRead);
                    ({| id := 9 |}, LedCtrlWrite PowerLed.Off)] (boot late) = Some after_three)
    by (vm_compute; reflexivity).
  split; [exact H1|]. split; [exact H2|].
  exact (proj1 (request_depends_only_on_the_call _ _ _ _ _ _
                  {| id := 4 |} (MoveTimeWrite 1000 0) H1 H2)).
Defined.

(** C10. The power-LED enumeration is encoded against its names: [On] is
    0 and [Off] is 1.  [ledCtrlWrite(On)] sends the payload byte 00 and
    [ledCtrlWrite(Off)] sends 01; when [ledCtrlRead] returns, its value is
    the payload byte of the accepted reply taken as a [PowerLed], so a
    reply carrying 00 reads as [On] and one carrying 01 as [Off]. *)
Theorem powerLed_is_encoded_inverted this w :
  reachable w ->
  PowerLed.to_u8 PowerLed.On = 0 /\ PowerLed.to_u8 PowerLed.Off = 1 /\
  sent (ledCtrlWrite this PowerLed.On) w
    = [0x55; 0x55; u8 (id this); 4; 33; 0x00; spec_checksum [u8 (id this); 4; 33; 0x00]] /\
  sent (ledCtrlWrite this PowerLed.Off) w
    = [0x55; 0x55; u8 (id this); 4; 33; 0x01; spec_checksum [u8 (id this); 4; 33; 0x01]] /\
  (forall v w', ledCtrlRead this w = Done v w' ->
     checkMessage (statics w' getMessage_res) LedCtrlReadId LedCtrlReplySize = Some true /\
     exists b, statics w' getMessage_res !! 5%nat = Some b /\ v = PowerLed.of_u8 b) /\
  returned (ledCtrlRead {| id := 1 |} (boot (arriving [[0x55; 0x55; 1; 4; 34; 0x00; 0xD8]])))
    = Some PowerLed.On /\
  returned (ledCtrlRead {| id := 1 |} (boot (arriving [[0x55; 0x55; 1; 4; 34; 0x01; 0xD7]])))
    = Some PowerLed.Off.
Proof.
  intros Hr. apply reachable_inv in Hr.
  split; [reflexivity|]. split; [reflexivity|]. split; [|split; [|split]].
  - change (ledCtrlWrite this PowerLed.On) with (exec this (LedCtrlWrite PowerLed.On)).
    now rewrite exec_sent.
  - change (ledCtrlWrite this PowerLed.Off) with (exec this (LedCtrlWrite PowerLed.Off)).
    now rewrite exec_sent.
  - intros v w' Hrun. explicit_buffer Hr ledCtrlRead_buf Hst.
    unfold ledCtrlRead in Hrun. cbv zeta in Hrun. unbind_in Hrun.
    destruct (genericRead this ledCtrlRead_buf LedCtrlReplySize w) as [r wg|e wg|wg] eqn:Hg;
      try discriminate.
    assert (Hne : ledCtrlRead_buf <> getMessage_res) by discriminate.
    destruct (genericRead_Done _ _ _ _ _ _ _ _ _ _ _ _ _ Hne Hst Hg) as (-> & Hok).
    unfold load in Hrun. destruct (statics wg getMessage_res !! 5%nat) as [b|] eqn:Hb;
      try discriminate.
    cbv beta iota in Hrun. injection Hrun as <- <-. split; [exact Hok|]. now exists b.
  - now vm_compute.
Qed.

Lemma powerLed_is_encoded_inverted_at_boot :
  reachable (boot quiet) /\
  sent (ledCtrlWrite {| id := 1 |} PowerLed.On) (boot quiet)
    = [0x55; 0x55; 0x01; 0x04; 0x21; 0x00; 0xD9] /\
  sent (ledCtrlWrite {| id := 1 |} PowerLed.Off) (boot quiet)
    = [0x55; 0x55; 0x01; 0x04; 0x21; 0x01; 0xD8].
Proof.
  assert (Hr : reachable (boot quiet)) by (exists [], quiet; reflexivity).
  destruct (powerLed_is_encoded_inverted {| id := 1 |} (boot quiet) Hr)
    as (_ & _ & Hon & Hoff & _).
  split; [exact Hr|]. split.
  - rewrite Hon. vm_compute. reflexivity.
  - rewrite Hoff. vm_compute. reflexivity.
Defined.

(** * Further properties of the code *)

(** ** Bytes and words *)

Lemma u8_byte x : is_byte x -> u8 x = x.
Proof. unfold is_byte, u8. intros H. apply Z.mod_small. lia. Qed.

Lemma u8_is_byte x : is_byte (u8 x).
Proof. unfold is_byte, u8. pose proof (Z.mod_pos_bound x 256). lia. Qed.

Lemma low_byte_is_byte x : is_byte (low_byte x).
Proof. apply u8_is_byte. Qed.

Lemma high_byte_is_byte x : is_byte (high_byte x).
Proof. apply u8_is_byte. Qed.

Lemma fmap_u8_bytes (l : list Z) : Forall is_byte l -> u8 <$> l = l.
Proof.
  induction 1 as [|x l Hx _ IH]; [done|]. cbn [fmap list_fmap].
  rewrite (u8_byte x Hx). f_equal. exact IH.
Qed.

Lemma word_of_uint16 x : is_uint16 x -> u16 (word_of (low_byte x) (high_byte x)) = x.
Proof.
  intros H. unfold low_byte, high_byte. rewrite word_of_bytes.
  unfold u16, is_uint16 in *. rewrite Z.mod_mod by lia. apply Z.mod_small. lia.
Qed.

Lemma word_of_int16 x : is_int16 x -> i16 (word_of (low_byte x) (high_byte x)) = x.
Proof. apply word_roundtrip. Qed.

Lemma i8_u8 x : is_int8 x -> i8 (u8 x) = x.
Proof. unfold is_int8, i8, u8. intros H. Z.div_mod_to_equations. lia. Qed.

Lemma low_byte_uint16 t : u8 (getLowByte t) = low_byte t.
Proof.
  unfold low_byte, getLowByte. rewrite !u8_idem. unfold u8, u16.
  Z.div_mod_to_equations. lia.
Qed.

Lemma high_byte_uint16 t : is_uint16 t -> u8 (getHighByte t) = high_byte t.
Proof.
  intros H. unfold high_byte, u16. unfold is_uint16 in H. now rewrite (Z.mod_small t) by lia.
Qed.

Create HintDb bytes discriminated.
#[local] Hint Resolve u8_is_byte low_byte_is_byte high_byte_is_byte : bytes.

(** ** Concrete inputs *)

Ltac at_start := solve [eexists [], _; reflexivity].
Ltac at_first_poll := solve [split; [reflexivity | apply Nat.le_0_l]].
Ltac in_range := solve [unfold is_byte, is_uint16, is_int16, is_int8; lia].
Ltac all_bytes :=
  solve [repeat first [apply List.Forall_nil | apply List.Forall_cons; [in_range|]]].

(** ** The two waits of [getMessage] *)

#[local] Arguments serialDataAvail !w /.
#[local] Arguments serialGetchar !w /.

(** The wait and the check after it, when the awaited bytes land [k]
    polls from now, [k] no more than the turns of the loop. *)
Lemma wait_until_landing {A} k : forall n need st wr reply (K : Z -> M A),
  (k <= n)%nat -> 0 < need <= Z.of_nat (length reply) ->
  (busyLoop n need ≫= fun _ => serialDataAvail ≫= K)
    {| statics := st; line := {| written := wr; rxq := []; wire := repeat [] k ++ [reply] |} |}
  = K (Z.of_nat (length reply))
      {| statics := st; line := {| written := wr; rxq := reply; wire := [] |} |}.
Proof.
  induction k as [|k IH]; intros n need st wr reply K Hk Hneed.
  - destruct n as [|n].
    + reflexivity.
    + rewrite busyLoop_S. unbind. cbn [repeat app].
      unfold serialDataAvail, poll, land_burst. cbn [line wire rxq written statics fst snd app].
      destruct (Z.ltb_spec (Z.of_nat (length reply)) need); [lia|]. reflexivity.
  - destruct n as [|n]; [lia|].
    rewrite busyLoop_S. unbind. cbn [repeat app].
    unfold serialDataAvail at 1. unfold poll, land_burst.
    cbn [line wire rxq written statics fst snd app length].
    destruct (Z.ltb_spec (Z.of_nat 0) need); [|lia].
    specialize (IH n need st wr reply K). unbind_in IH. apply IH; lia.
Qed.

(** The wait and the check after it, when the awaited bytes are there and
    nothing more is on its way. *)
Lemma wait_when_ready {A} n need st wr rx (K : Z -> M A) :
  need <= Z.of_nat (length rx) ->
  (busyLoop n need ≫= fun _ => serialDataAvail ≫= K)
    {| statics := st; line := {| written := wr; rxq := rx; wire := [] |} |}
  = K (Z.of_nat (length rx))
      {| statics := st; line := {| written := wr; rxq := rx; wire := [] |} |}.
Proof.
  intros Hneed. destruct n as [|n].
  - reflexivity.
  - rewrite busyLoop_S. unbind.
    unfold serialDataAvail, poll, land_burst. cbn [line wire rxq written statics fst snd].
    destruct (Z.ltb_spec (Z.of_nat (length rx)) need); [lia|]. reflexivity.
Qed.

(** The wait and the check after it, when nothing comes any more. *)
Lemma wait_in_vain {A} n need st wr rx (K : Z -> M A) :
  Z.of_nat (length rx) < need ->
  (busyLoop n need ≫= fun _ => serialDataAvail ≫= K)
    {| statics := st; line := {| written := wr; rxq := rx; wire := [] |} |}
  = K (Z.of_nat (length rx))
      {| statics := st; line := {| written := wr; rxq := rx; wire := [] |} |}.
Proof.
  intros Hneed. unbind. induction n as [|n IH].
  - reflexivity.
  - rewrite busyLoop_S. unbind.
    unfold serialDataAvail at 1. unfold poll, land_burst.
    cbn [line wire rxq written statics fst snd].
    destruct (Z.ltb_spec (Z.of_nat (length rx)) need); [|lia]. exact IH.
Qed.

(** ** Filling [res] from the line *)

Lemma bind_done {A B} (m : M A) (f : A -> M B) w a w' :
  m w = Done a w' -> (m ≫= f) w = f a w'.
Proof. intros H. unbind. now rewrite H. Qed.

Lemma bind_undefined {A B} (m : M A) (f : A -> M B) w w' :
  m w = Undefined w' -> (m ≫= f) w = Undefined w'.
Proof. intros H. unbind. now rewrite H. Qed.

(** The loop that copies the rest of a message, when the [n] bytes it asks
    for are the head of the received bytes and fit in [res]: they are
    stored, as bytes, from index [i+4] on. *)
Lemma getMessage_fill_stores tail : forall room i st wr rest wi L,
  st getMessage_res = L ->
  (length tail <= room)%nat -> (i + 4 + length tail <= length L)%nat ->
  exists st',
    getMessage_fill room i (Z.of_nat (i + length tail))
      {| statics := st; line := {| written := wr; rxq := tail ++ rest; wire := wi |} |}
    = Done tt {| statics := st'; line := {| written := wr; rxq := rest; wire := wi |} |} /\
    (forall s, s <> getMessage_res -> st' s = st s) /\
    st' getMessage_res
    = take (i + 4) L ++ (u8 <$> tail) ++ drop (i + 4 + length tail) L.
Proof.
  induction tail as [|t tail IH]; intros room i st wr rest wi L HL Hroom Hlen.
  - exists st. cbn [length app fmap list_fmap] in *. rewrite !Nat.add_0_r.
    split; [|split; [done|]].
    + destruct room; cbn [getMessage_fill]; now rewrite Z.ltb_irrefl.
    + rewrite HL. cbn [app]. now rewrite take_drop.
  - destruct room as [|room]; [cbn in Hroom; lia|]. cbn [length] in *.
    cbn [getMessage_fill].
    destruct (Z.ltb_spec (Z.of_nat i) (Z.of_nat (i + S (length tail)))); [|lia].
    erewrite bind_done; [|reflexivity].
    erewrite bind_done.
    2: { unfold store. cbn [statics line]. rewrite HL.
         destruct (Nat.ltb_spec (i + 4) (length L)); [|lia]. reflexivity. }
    destruct (IH room (S i)
                (<[getMessage_res := <[(i + 4)%nat := u8 t]> L]> st) wr rest wi
                (<[(i + 4)%nat := u8 t]> L)) as (st' & Hrun & Hs & Hres).
    { apply fn_lookup_insert. }
    { lia. }
    { rewrite length_insert. lia. }
    exists st'. replace (Z.of_nat (i + S (length tail))) with (Z.of_nat (S i + length tail)) by lia.
    split; [exact Hrun|]. split.
    + intros s Hne. rewrite Hs by done. now apply fn_lookup_insert_ne.
    + rewrite Hres. cbn [fmap list_fmap].
      rewrite drop_insert_lt by lia.
      replace (S i + 4 + length tail)%nat with (i + 4 + S (length tail))%nat by lia.
      replace (S i + 4)%nat with (S (i + 4)) by lia.
      erewrite take_S_r by (apply list_lookup_insert_eq; lia).
      rewrite take_insert_ge by lia. now rewrite <- app_assoc.
Qed.

(** The same loop, when it is asked for more bytes than [res] has room
    for: it runs off the end of the array, whatever the line delivers. *)
Lemma getMessage_fill_overflows room : forall i last w,
  Z.of_nat (i + room) < last ->
  length (statics w getMessage_res) = (i + 4 + room)%nat ->
  exists w', getMessage_fill room i last w = Undefined w'.
Proof.
  induction room as [|room IH]; intros i last w Hlast Hlen; cbn [getMessage_fill];
    (destruct (Z.ltb_spec (Z.of_nat i) last); [|lia]).
  - eauto.
  - assert (Hget : exists c l', serialGetchar w = Done c {| statics := statics w; line := l' |}).
    { unfold serialGetchar. destruct w as [st [wr [|c rx] wi]]; cbn; eauto. }
    destruct Hget as (c & l' & Hget).
    erewrite bind_done by exact Hget.
    erewrite bind_done.
    2: { unfold store. cbn [statics line]. 
         destruct (Nat.ltb_spec (i + 4) (length (statics w getMessage_res))); [|lia].
         reflexivity. }
    apply IH; [lia|]. cbn [statics]. rewrite fn_lookup_insert, length_insert. lia.
Qed.

(** ** What [getMessage] makes of a message on the line *)

Ltac prim H :=
  cbn; rewrite ?fn_lookup_insert, ?H; cbn; rewrite ?fn_lookup_insert, ?H; cbn; reflexivity.

Ltac step H := erewrite bind_done by prim H.

Lemma ten_elements (L : Buffer) :
  length L = 10%nat -> exists r0 r1 r2 r3 r4 r5 r6 r7 r8 r9, L = [r0; r1; r2; r3; r4; r5; r6; r7; r8; r9].
Proof.
  intros H. do 10 (destruct L as [|? L]; [discriminate H|]).
  destruct L; [|discriminate H]. repeat eexists.
Qed.

(** The first half of [getMessage]: the four header bytes land [k] polls
    after the call and are stored in [res]; [rest] is what follows. *)
Lemma getMessage_takes_the_header st wr k b0 b1 b2 len tail L :
  st getMessage_res = L -> length L = 10%nat -> (k <= MaxBusyLoop)%nat ->
  exists st4,
    st4 getMessage_res = [u8 b0; u8 b1; u8 b2; u8 len] ++ drop 4 L /\
    (forall s, s <> getMessage_res -> st4 s = st s) /\
    getMessage {| statics := st;
                  line := {| written := wr; rxq := [];
                             wire := repeat [] k ++ [b0 :: b1 :: b2 :: len :: tail] |} |}
    = (busyLoop MaxBusyLoop (u8 len - 1);;
       a ← serialDataAvail;
       len ← load getMessage_res 3;
       if a <? len - 1 then
         store getMessage_res 2 0;; store getMessage_res 3 0;;
         throw PayloadTimeout
       else
       len ← load getMessage_res 3;
       getMessage_fill 6 0 ((len - 1) mod 2 ^ 32);;
       mret getMessage_res)
      {| statics := st4; line := {| written := wr; rxq := tail; wire := [] |} |}.
Proof.
  intros Hres Hlen Hk.
  destruct (ten_elements L Hlen) as (r0 & r1 & r2 & r3 & r4 & r5 & r6 & r7 & r8 & r9 & ->).
  eexists. split; [|split]; cycle 2.
  - unfold getMessage.
    rewrite (wait_until_landing k MaxBusyLoop 4) by (cbn [length]; lia).
    cbv beta.
    destruct (Z.ltb_spec (Z.of_nat (length (b0 :: b1 :: b2 :: len :: tail))) 4);
      [cbn [length] in *; lia|].
    do 9 step Hres. reflexivity.
  - cbn. now rewrite fn_lookup_insert.
  - intros s Hs. cbn. now rewrite !fn_lookup_insert_ne by done.
Qed.

Lemma getMessage_receives w k b0 b1 b2 len body extra :
  length (statics w getMessage_res) = 10%nat ->
  rxq (line w) = [] ->
  wire (line w) = repeat [] k ++ [b0 :: b1 :: b2 :: len :: body ++ extra] ->
  (k <= MaxBusyLoop)%nat ->
  1 <= len <= 7 -> Z.of_nat (length body) = len - 1 ->
  exists w',
    getMessage w = Done getMessage_res w' /\
    statics w' getMessage_res
    = (u8 <$> b0 :: b1 :: b2 :: len :: body)
      ++ drop (Z.to_nat (len + 3)) (statics w getMessage_res) /\
    (forall s, s <> getMessage_res -> statics w' s = statics w s) /\
    line w' = {| written := written (line w); rxq := extra; wire := [] |}.
Proof.
  destruct w as [st [wr rx wi]]. cbn [statics line rxq wire written].
  intros Hlen -> -> Hk Hl Hbody.
  destruct (getMessage_takes_the_header st wr k b0 b1 b2 len (body ++ extra) _ eq_refl Hlen Hk)
    as (st4 & Hres4 & Hs4 & ->).
  rewrite (u8_byte len) by (unfold is_byte; lia).
  rewrite wait_when_ready by (rewrite length_app; lia). cbv beta.
  step Hres4. rewrite (u8_byte len) by (unfold is_byte; lia).
  destruct (Z.ltb_spec (Z.of_nat (length (body ++ extra))) (len - 1));
    [rewrite length_app in *; lia|].
  step Hres4. rewrite (u8_byte len) by (unfold is_byte; lia).
  rewrite Z.mod_small by lia.
  replace (len - 1) with (Z.of_nat (0 + length body)) by lia.
  destruct (getMessage_fill_stores body 6 0 st4 wr extra [] _ Hres4)
    as (st' & Hfill & Hs' & Hres').
  { lia. }
  { cbn [length app]. rewrite length_drop. lia. }
  erewrite bind_done by exact Hfill.
  eexists. split; [reflexivity|]. cbn [statics line]. split; [|split; [|reflexivity]].
  - rewrite Hres'. cbn [Nat.add take drop app fmap list_fmap].
    rewrite take_0. cbn [app]. do 5 f_equal. rewrite drop_drop. f_equal. lia.
  - intros s Hs. rewrite Hs' by done. now apply Hs4.
Qed.

Lemma getMessage_misses_the_payload w k b0 b1 b2 len tail :
  length (statics w getMessage_res) = 10%nat ->
  rxq (line w) = [] ->
  wire (line w) = repeat [] k ++ [b0 :: b1 :: b2 :: len :: tail] ->
  (k <= MaxBusyLoop)%nat ->
  is_byte len -> Z.of_nat (length tail) < len - 1 ->
  exists w',
    getMessage w = Throw PayloadTimeout w' /\
    statics w' getMessage_res
    = [u8 b0; u8 b1; 0; 0] ++ drop 4 (statics w getMessage_res) /\
    (forall s, s <> getMessage_res -> statics w' s = statics w s) /\
    line w' = {| written := written (line w); rxq := tail; wire := [] |}.
Proof.
  destruct w as [st [wr rx wi]]. cbn [statics line rxq wire written].
  intros Hlen -> -> Hk Hl Htail.
  destruct (getMessage_takes_the_header st wr k b0 b1 b2 len tail _ eq_refl Hlen Hk)
    as (st4 & Hres4 & Hs4 & ->).
  destruct (ten_elements _ Hlen) as (r0 & r1 & r2 & r3 & r4 & r5 & r6 & r7 & r8 & r9 & Hst).
  rewrite Hst in Hres4. cbn [drop app] in Hres4.
  rewrite (u8_byte len) by exact Hl.
  rewrite wait_in_vain by exact Htail. cbv beta.
  step Hres4. rewrite (u8_byte len) by exact Hl.
  destruct (Z.ltb_spec (Z.of_nat (length tail)) (len - 1)); [|lia].
  do 2 step Hres4.
  eexists. split; [reflexivity|]. cbn [statics line]. split; [|split; [|reflexivity]].
  - now rewrite fn_lookup_insert, Hst.
  - intros s Hs. rewrite !fn_lookup_insert_ne by done. now apply Hs4.
Qed.

Lemma getMessage_overruns_res w k b0 b1 b2 len tail :
  length (statics w getMessage_res) = 10%nat ->
  rxq (line w) = [] ->
  wire (line w) = repeat [] k ++ [b0 :: b1 :: b2 :: len :: tail] ->
  (k <= MaxBusyLoop)%nat ->
  len = 0 \/ 8 <= len <= 255 -> len - 1 <= Z.of_nat (length tail) ->
  exists w', getMessage w = Undefined w'.
Proof.
  destruct w as [st [wr rx wi]]. cbn [statics line rxq wire written].
  intros Hlen -> -> Hk Hl Htail.
  destruct (getMessage_takes_the_header st wr k b0 b1 b2 len tail _ eq_refl Hlen Hk)
    as (st4 & Hres4 & Hs4 & ->).
  destruct (ten_elements _ Hlen) as (r0 & r1 & r2 & r3 & r4 & r5 & r6 & r7 & r8 & r9 & Hst).
  rewrite Hst in Hres4. cbn [drop app] in Hres4.
  rewrite (u8_byte len) by (unfold is_byte; lia).
  rewrite wait_when_ready by exact Htail. cbv beta.
  step Hres4. rewrite (u8_byte len) by (unfold is_byte; lia).
  destruct (Z.ltb_spec (Z.of_nat (length tail)) (len - 1)); [lia|].
  step Hres4. rewrite (u8_byte len) by (unfold is_byte; lia).
  match goal with |- context [getMessage_fill 6 0 ?last ≫= _] =>
    destruct (getMessage_fill_overflows 6 0 last
      {| statics := st4; line := {| written := wr; rxq := tail; wire := [] |} |})
      as (w' & Hw')
  end.
  - destruct Hl as [->|Hl]; [vm_compute; reflexivity|]. rewrite Z.mod_small by lia. lia.
  - cbn [statics]. now rewrite Hres4.
  - exists w'. now apply bind_undefined.
Qed.

(** ** The exchange of [genericRead] with a message on the line *)

Lemma reading_buffer_shape w buf cmd :
  inv w -> boot_statics buf = template 3 cmd ->
  buf <> getMessage_res /\
  exists x p5 p6 p7 p8 p9, statics w buf = [0x55; 0x55; x; 3; cmd; p5; p6; p7; p8; p9].
Proof.
  intros Hinv Hboot.
  assert (Hne : buf <> getMessage_res) by (intros ->; discriminate Hboot).
  split; [exact Hne|].
  destruct (shaped_explicit buf _ (Hinv buf) Hne)
    as (x & p5 & p6 & p7 & p8 & p9 & sz & c & Hb & Hst & _).
  rewrite Hboot in Hb. injection Hb as <- <-. eauto 10.
Qed.

Lemma inv_res w : inv w -> length (statics w getMessage_res) = 10%nat.
Proof.
  intros Hinv. specialize (Hinv getMessage_res). unfold shaped in Hinv.
  rewrite andb_true_r in Hinv. now apply Nat.eqb_eq in Hinv.
Qed.

Lemma template_command_is_byte buf cmd : boot_statics buf = template 3 cmd -> is_byte cmd.
Proof.
  intros H. destruct buf; cbv [boot_statics template] in H; try discriminate H;
    injection H as <-; unfold is_byte; vm_compute; split; discriminate.
Qed.

(** [genericRead] with a whole message landing within the polling bound:
    the request goes out, the message is copied to [res] and taken off the
    line, and [checkMessage] decides between returning and throwing. *)
Lemma genericRead_exchange this buf replySize cmd w k b0 b1 b2 len body extra :
  inv w -> boot_statics buf = template 3 cmd ->
  wire (line w) = repeat [] k ++ [b0 :: b1 :: b2 :: len :: body ++ extra] ->
  (k <= MaxBusyLoop)%nat ->
  1 <= len <= 7 -> Z.of_nat (length body) = len - 1 ->
  exists w',
    statics w' getMessage_res
    = (u8 <$> b0 :: b1 :: b2 :: len :: body)
      ++ drop (Z.to_nat (len + 3)) (statics w getMessage_res) /\
    (forall s, s <> getMessage_res -> s <> buf -> statics w' s = statics w s) /\
    line w' = {| written := written (line w) ++ encode (u8 (id this)) cmd [];
                 rxq := extra; wire := [] |} /\
    genericRead this buf replySize w
    = match checkMessage (statics w' getMessage_res) cmd replySize with
      | Some true => Done getMessage_res w'
      | Some false => Throw CorruptedMessage w'
      | None => Undefined w'
      end.
Proof.
  intros Hinv Hboot Hwire Hk Hlen Hbody.
  destruct (reading_buffer_shape w buf cmd Hinv Hboot)
    as (Hne & x & p5 & p6 & p7 & p8 & p9 & Hst).
  destruct (genericRead_run this buf replySize w _ _ _ _ _ _ _ Hne Hst)
    as (wp & Hl & Hs & _ & ->).
  destruct (getMessage_receives wp k b0 b1 b2 len body extra)
    as (w' & -> & Hres & Hs' & Hl'); try done.
  - rewrite Hs by done. now apply inv_res.
  - now rewrite Hl.
  - now rewrite Hl.
  - exists w'. split; [|split; [|split]].
    + rewrite Hres. now rewrite Hs by done.
    + intros s H1 H2. rewrite Hs' by done. now apply Hs.
    + rewrite Hl', Hl. reflexivity.
    + now destruct (checkMessage _ _ _) as [[|]|].
Qed.

Ltac bytes_of H :=
  repeat match type of H with
  | Forall _ (_ :: _) =>
      let Hx := fresh "Hbyte" in
      pose proof (Forall_inv H) as Hx; apply Forall_inv_tail in H
  end.

(** A reply that carries the expected length and command and the right
    checksum is accepted, whatever its two header bytes and its address
    byte are. *)
Lemma genericRead_accepts this buf replySize cmd w k h0 h1 a payload :
  inv w -> boot_statics buf = template 3 cmd ->
  wire (line w) = repeat [] k
    ++ [h0 :: h1 :: a :: replySize :: cmd :: payload
        ++ [spec_checksum (a :: replySize :: cmd :: payload)]] ->
  (k <= MaxBusyLoop)%nat ->
  replySize = 3 + Z.of_nat (length payload) -> (length payload <= 4)%nat ->
  is_byte a -> is_byte cmd -> Forall is_byte payload ->
  exists w',
    genericRead this buf replySize w = Done getMessage_res w' /\
    statics w' getMessage_res
    = [u8 h0; u8 h1; a; replySize; cmd] ++ payload
      ++ [spec_checksum (a :: replySize :: cmd :: payload)]
      ++ drop (Z.to_nat (replySize + 3)) (statics w getMessage_res) /\
    (forall s, s <> getMessage_res -> s <> buf -> statics w' s = statics w s) /\
    line w' = {| written := written (line w) ++ encode (u8 (id this)) cmd [];
                 rxq := []; wire := [] |}.
Proof.
  intros Hinv Hboot Hwire Hk HR Hp Ha Hc Hpay.
  destruct (genericRead_exchange this buf replySize cmd w k h0 h1 a replySize
              (cmd :: payload ++ [spec_checksum (a :: replySize :: cmd :: payload)]) []
              Hinv Hboot) as (w' & Hres & Hs & Hl & ->); try done.
  - now rewrite app_nil_r.
  - lia.
  - cbn [length]. rewrite length_app. cbn [length]. lia.
  - assert (Hstored : statics w' getMessage_res
      = [u8 h0; u8 h1; a; replySize; cmd] ++ payload
        ++ [spec_checksum (a :: replySize :: cmd :: payload)]
        ++ drop (Z.to_nat (replySize + 3)) (statics w getMessage_res)).
    { rewrite Hres. cbn [fmap list_fmap app]. rewrite fmap_app. cbn [fmap list_fmap].
      rewrite u8_spec_checksum, (u8_byte a), (u8_byte cmd), (u8_byte replySize)
        by (done || (unfold is_byte; lia)).
      do 5 f_equal. rewrite <- app_assoc. f_equal.
      clear -Hpay. induction Hpay as [|x l Hx _ IH]; [done|].
      cbn [fmap list_fmap]. now rewrite IH, (u8_byte x). }
    exists w'. split; [|done].
    destruct (ten_elements _ (inv_res w Hinv))
      as (r0 & r1 & r2 & r3 & r4 & r5 & r6 & r7 & r8 & r9 & Hold).
    rewrite Hstored, Hold. clear Hres Hstored Hwire.
    destruct payload as [|x0 [|x1 [|x2 [|x3 [|x4 rest]]]]]; try (cbn in Hp; lia);
      match type of HR with _ = ?e =>
        let v := eval vm_compute in e in change e with v in HR end;
      subst replySize; nat_of_Z; cbn [app drop];
      unfold checkMessage; nat_of_Z; cbn [lookup list_lookup mbind option_bind];
      rewrite !Z.eqb_refl; cbn [negb];
      [ use_checksum_spec 3 | use_checksum_spec 4 | use_checksum_spec 5
      | use_checksum_spec 6 | use_checksum_spec 7 ];
      nat_of_Z; cbn [summed_part lookup list_lookup take drop mbind option_bind];
      nat_of_Z; cbn [take drop]; now rewrite Z.eqb_refl.
Qed.

(** A reading method whose request buffer is [buf], handed the reply
    [encode a cmd payload]. *)
Lemma reading_accepts this buf replySize cmd w k a payload :
  reachable w -> boot_statics buf = template 3 cmd ->
  lands k (encode a cmd payload) (line w) ->
  replySize = 3 + Z.of_nat (length payload) -> (length payload <= 4)%nat ->
  is_byte a -> is_byte cmd -> Forall is_byte payload ->
  exists st' l',
    genericRead this buf replySize w
    = Done getMessage_res {| statics := st'; line := l' |} /\
    st' getMessage_res
    = [0x55; 0x55; a; replySize; cmd] ++ payload
      ++ [spec_checksum (a :: replySize :: cmd :: payload)]
      ++ drop (Z.to_nat (replySize + 3)) (statics w getMessage_res).
Proof.
  intros Hr Hboot [Hwire Hk] HR Hp Ha Hc Hpay. apply reachable_inv in Hr.
  destruct (genericRead_accepts this buf replySize cmd w k 0x55 0x55 a payload)
    as ([st' l'] & Hrun & Hres & _); try done.
  - rewrite Hwire, HR. reflexivity.
  - exists st', l'. split; [exact Hrun|]. exact Hres.
Qed.

Ltac decode_reply lem slot Hres :=
  let st' := fresh "st'" in let l' := fresh "l'" in
  let Hrun := fresh "Hrun" in
  edestruct (lem slot) as (st' & l' & Hrun & Hres);
  [ eassumption | reflexivity | eassumption | reflexivity | cbn [length]; lia
  | assumption | (unfold is_byte; vm_compute; split; discriminate)
  | solve [repeat first [apply List.Forall_nil | apply List.Forall_cons; [auto with bytes|]]]
  | cbv zeta; erewrite bind_done by exact Hrun;
    cbn [app] in Hres; repeat step Hres ].

Lemma read_overruns {A} this buf replySize (dec : slot -> M A) w x c p5 p6 p7 p8 p9 :
  buf <> getMessage_res ->
  statics w buf = [0x55; 0x55; x; 3; c; p5; p6; p7; p8; p9] ->
  length (statics w getMessage_res) = 10%nat ->
  exists wp,
    rxq (line wp) = [] /\ wire (line wp) = wire (line w) /\
    length (statics wp getMessage_res) = 10%nat /\
    (forall wg, getMessage wp = Undefined wg ->
       forget (genericRead this buf replySize ≫= dec) w = Undefined wg).
Proof.
  intros Hbuf Hst Hres.
  destruct (genericRead_run this buf replySize w _ _ _ _ _ _ _ Hbuf Hst)
    as (wp & Hl & Hs & _ & Hg).
  exists wp. rewrite Hl, Hs by congruence. repeat split; [done|].
  intros wg Hwg. rewrite Hwg in Hg. unfold forget.
  erewrite bind_undefined; [reflexivity|]. now apply bind_undefined.
Qed.

Lemma genericRead_flushes this buf replySize st wr rx rx' wi x c p5 p6 p7 p8 p9 :
  st buf = [0x55; 0x55; x; 3; c; p5; p6; p7; p8; p9] ->
  genericRead this buf replySize
    {| statics := st; line := {| written := wr; rxq := rx; wire := wi |} |}
  = genericRead this buf replySize
      {| statics := st; line := {| written := wr; rxq := rx'; wire := wi |} |}.
Proof.
  intros Hst. unfold genericRead. crank_with Hst. use_checksum_spec 3. crank_with Hst.
  reflexivity.
Qed.

(** ** The checksum test *)

Lemma sum_insert (l : list Z) : forall j old v,
  l !! j = Some old ->
  foldr Z.add 0 (<[j := v]> l) = foldr Z.add 0 l - old + v.
Proof.
  induction l as [|x l IH]; intros [|j] old v H; try discriminate H.
  - injection H as ->. change (<[0%nat := v]> (old :: l)) with (v :: l). cbn [foldr]. lia.
  - change (<[S j := v]> (x :: l)) with (x :: <[j := v]> l). cbn [foldr].
    rewrite (IH j old v H). lia.
Qed.

Lemma spec_checksum_inj l l' :
  spec_checksum l = spec_checksum l' ->
  (foldr Z.add 0 l) mod 256 = (foldr Z.add 0 l') mod 256.
Proof.
  unfold spec_checksum. rewrite !land_255. unfold Z.lnot, Z.pred.
  intros H. Z.div_mod_to_equations. lia.
Qed.

Lemma checkMessage_true (buf : Buffer) cmd size :
  length buf = 10%nat -> 3 <= size <= 7 ->
  checkMessage buf cmd size = Some true <->
  buf !! 3%nat = Some size /\ buf !! 4%nat = Some cmd /\
  buf !! Z.to_nat (size + 2) = Some (spec_checksum (take (Z.to_nat size) (drop 2 buf))).
Proof.
  intros Hlen Hsize.
  destruct (checkMessage_decides buf cmd size Hlen Hsize)
    as (b3 & b4 & last & ck & H3 & H4 & Hlast & Hck & ->).
  rewrite H3, H4, Hlast. split.
  - intros [= H]. apply andb_true_iff in H as [H Hl]. apply andb_true_iff in H as [Hb3 Hb4].
    apply Z.eqb_eq in Hb3, Hb4, Hl. subst b3 b4 last.
    specialize (Hck eq_refl). rewrite (checksum_spec _ size) in Hck by (done || lia).
    injection Hck as <-. unfold summed_part. now rewrite H3.
  - intros ([= ->] & [= ->] & [= Hl]).
    specialize (Hck eq_refl). rewrite (checksum_spec _ size) in Hck by (done || lia).
    injection Hck as <-. unfold summed_part. rewrite H3, <- Hl, !Z.eqb_refl. done.
Qed.

(** ** The decoders *)

Lemma land_one_bit b n :
  0 <= n -> Z.land b (2 ^ n) = if Z.testbit b n then 2 ^ n else 0.
Proof.
  intros Hn. apply Z.bits_inj'. intros m Hm. rewrite Z.land_spec, Z.pow2_bits_eqb by lia.
  destruct (Z.eqb_spec n m) as [->|Hne].
  - rewrite andb_true_r. destruct (Z.testbit b m); [|now rewrite Z.bits_0].
    rewrite Z.pow2_bits_eqb by lia. now rewrite Z.eqb_refl.
  - rewrite andb_false_r. destruct (Z.testbit b n); [|now rewrite Z.bits_0].
    rewrite Z.pow2_bits_eqb by lia. symmetry. now apply Z.eqb_neq.
Qed.

Lemma to_bool_land_bit b n :
  0 <= n -> to_bool (Z.land b (2 ^ n)) = Z.testbit b n.
Proof.
  intros Hn. rewrite land_one_bit by done. unfold to_bool.
  destruct (Z.testbit b n); [|reflexivity].
  destruct (Z.eqb_spec (2 ^ n) 0) as [H|]; [|reflexivity].
  pose proof (Z.pow_pos_nonneg 2 n). lia.
Qed.

(** ** A writing call followed by a reading call *)

Lemma write_sends this c w :
  reachable w -> is_read c = false ->
  exists w', exec this c w = Done tt w' /\ sent (exec this c) w = request this c.
Proof.
  intros Hr Hc. apply reachable_inv in Hr.
  destruct (write_call_returns this c w Hr Hc) as (w' & Hw').
  exists w'. split; [exact Hw'|]. now apply exec_sent.
Qed.

Lemma run_app h h' w : run (h ++ h') w = run h w ≫= run h'.
Proof.
  revert w. induction h as [|[this c] h IH]; intros w; [done|].
  cbn [app run]. destruct (exec this c w); auto.
Qed.

Lemma reachable_exec this c w a w' : reachable w -> exec this c w = Done a w' -> reachable w'.
Proof.
  intros (h & l & Hrun) He. exists (h ++ [(this, c)]), l.
  rewrite run_app, Hrun. cbn. now rewrite He.
Qed.

Lemma encode_payload a c p a' c' p' : encode a c p = encode a' c' p' -> p = p'.
Proof.
  unfold encode. intros H. injection H as _ _ _ H. now apply app_inj_tail in H as [? _].
Qed.

(** The world after a writing call, when the servo answers the next reading
    call with the payload [payload] that call has sent. *)
Lemma written_then w this c cmd payload k reply :
  reachable w -> is_read c = false ->
  request this c = encode (u8 (id this)) cmd payload ->
  lands k reply (line w) ->
  exists w1, exec this c w = Done tt w1 /\ reachable w1 /\ lands k reply (line w1) /\
             forall payload', sent (exec this c) w = encode (u8 (id this)) cmd payload' ->
                              payload' = payload.
Proof.
  intros Hr Hc Hreq [Hw Hk].
  destruct (write_call_emitted this c w (reachable_inv w Hr) Hc)
    as (buf & f & a & Hne & (w' & Hw' & Hl & Hs & _) & -> & _).
  exists w'. split; [done|]. split; [eapply reachable_exec; eauto|]. split.
  - split; [|done]. now rewrite Hl.
  - intros p' Hp'. rewrite exec_sent, Hreq in Hp' by now apply reachable_inv.
    symmetry. eapply encode_payload, Hp'.
Qed.

Ltac after_writing w this c Hl Hs w1 :=
  let Hw1 := fresh "Hw1" in let Hp := fresh "Hp" in
  edestruct (written_then w this c) as (w1 & Hw1 & ? & ? & Hp);
  [ eassumption | reflexivity | cbn [request]; reflexivity | exact Hl | ];
  cbn [exec] in Hw1, Hp; apply Hp in Hs; clear Hp; subst;
  exists w1; rewrite Hw1.

Ltac fold_bytes :=
  change (u8 (getLowByte (u16 ?x))) with (low_byte x) in *;
  change (u8 (getHighByte (u16 ?x))) with (high_byte x) in *.

(** * Further properties: receiving *)

(** X1. [getMessage], called with nothing unread, when a message with length
    byte [len] in 1..7 lands whole within the polling bound: it returns
    [res] holding the four header bytes and the [len - 1] bytes after
    them, leaves the elements of [res] past the message as they were,
    leaves on the line the bytes that came after the message, and writes
    nothing. *)
Theorem getMessage_stores_the_message w k b0 b1 b2 len body extra :
  reachable w -> rxq (line w) = [] ->
  lands k (b0 :: b1 :: b2 :: len :: body ++ extra) (line w) ->
  1 <= len <= 7 -> Z.of_nat (length body) = len - 1 ->
  Forall is_byte (b0 :: b1 :: b2 :: len :: body) ->
  exists w',
    getMessage w = Done getMessage_res w' /\
    take (Z.to_nat (len + 3)) (statics w' getMessage_res) = b0 :: b1 :: b2 :: len :: body /\
    drop (Z.to_nat (len + 3)) (statics w' getMessage_res)
    = drop (Z.to_nat (len + 3)) (statics w getMessage_res) /\
    rxq (line w') = extra /\ written (line w') = written (line w).
Proof.
  intros Hr Hrx [Hw Hk] Hlen Hbody Hbytes. apply reachable_inv in Hr.
  destruct (getMessage_receives w k b0 b1 b2 len body extra (inv_res w Hr) Hrx Hw Hk Hlen Hbody)
    as (w' & Hg & Hres & _ & Hl).
  exists w'. rewrite Hres, Hl, (fmap_u8_bytes _ Hbytes).
  assert (Hn : length (b0 :: b1 :: b2 :: len :: body) = Z.to_nat (len + 3))
    by (cbn [length]; lia).
  set (old := drop (Z.to_nat (len + 3)) (statics w getMessage_res)).
  rewrite <- Hn. now rewrite take_app_length, drop_app_length.
Qed.

Lemma getMessage_stores_the_message_example :
  let w := answering [0x55; 0x55; 1; 4; 34; 0; 0xD8; 0x55] in
  reachable w /\
  lands 0 ([0x55; 0x55; 1; 4] ++ [34; 0; 0xD8] ++ [0x55]) (line w) /\
  exists w',
    getMessage w = Done getMessage_res w' /\
    take 7 (statics w' getMessage_res) = [0x55; 0x55; 1; 4; 34; 0; 0xD8] /\
    drop 7 (statics w' getMessage_res) = drop 7 (statics w getMessage_res) /\
    rxq (line w') = [0x55] /\ written (line w') = written (line w).
Proof.
  intros w.
  assert (Hr : reachable w) by at_start.
  assert (Hl : lands 0 ([0x55; 0x55; 1; 4] ++ [34; 0; 0xD8] ++ [0x55]) (line w))
    by at_first_poll.
  split; [exact Hr|]. split; [exact Hl|].
  apply (getMessage_stores_the_message w 0 0x55 0x55 1 4 [34; 0; 0xD8] [0x55] Hr eq_refl Hl);
    [lia | reflexivity | all_bytes].
Defined.

(** X2. For every reading call in a reachable world: when the four header
    bytes land within the polling bound and fewer than [len - 1] bytes
    follow them for good, the call throws the payload-timeout error with
    [res[2]] and [res[3]] set to zero, and the bytes that did come stay
    unread on the line. *)
Theorem read_times_out_on_the_payload this c w k b0 b1 b2 len tail :
  reachable w -> is_read c = true ->
  lands k (b0 :: b1 :: b2 :: len :: tail) (line w) ->
  is_byte len -> Z.of_nat (length tail) < len - 1 ->
  exists w',
    exec this c w = Throw PayloadTimeout w' /\
    statics w' getMessage_res !! 2%nat = Some 0 /\
    statics w' getMessage_res !! 3%nat = Some 0 /\
    rxq (line w') = tail.
Proof.
  intros Hr Hc [Hw Hk] Hlen Htail. apply reachable_inv in Hr.
  destruct (read_call_run this c w Hr Hc) as (wp & Hrx & Hwi & Hl & Ht).
  destruct (getMessage_misses_the_payload wp k b0 b1 b2 len tail)
    as (w' & Hg & Hres & _ & Hline); try done; [congruence|].
  exists w'. split; [now apply Ht|]. rewrite Hres, Hline. now repeat split.
Qed.

Lemma read_times_out_on_the_payload_example :
  let w := answering [0x55; 0x55; 1; 5; 28; 0x10] in
  reachable w /\ lands 0 [0x55; 0x55; 1; 5; 28; 0x10] (line w) /\
  exists w',
    exec {| id := 1 |} PosRead w = Throw PayloadTimeout w' /\
    statics w' getMessage_res !! 2%nat = Some 0 /\
    statics w' getMessage_res !! 3%nat = Some 0 /\
    rxq (line w') = [28; 0x10].
Proof.
  intros w.
  assert (Hr : reachable w) by at_start.
  assert (Hl : lands 0 [0x55; 0x55; 1; 5; 28; 0x10] (line w)) by at_first_poll.
  split; [exact Hr|]. split; [exact Hl|].
  apply (read_times_out_on_the_payload {| id := 1 |} PosRead w 0 0x55 0x55 1 5 [28; 0x10]
           Hr eq_refl Hl); [in_range | cbn; lia].
Defined.

(** X3. For every reading call in a reachable world: a reply whose length
    byte is 0, or 8 and more, followed by the bytes it announces, makes
    the copy loop of [getMessage] store outside the ten elements of [res]:
    the call has no defined outcome. *)
Theorem reading_calls_overrun_on_a_bad_length this c w k b0 b1 b2 len tail :
  reachable w -> is_read c = true ->
  lands k (b0 :: b1 :: b2 :: len :: tail) (line w) ->
  len = 0 \/ 8 <= len <= 255 -> len - 1 <= Z.of_nat (length tail) ->
  exists w', exec this c w = Undefined w'.
Proof.
  intros Hr Hc Hlands Hlen Htail. apply reachable_inv in Hr.
  pose proof (inv_res w Hr) as Hres.
  assert (exists wp,
    rxq (line wp) = [] /\ wire (line wp) = wire (line w) /\
    length (statics wp getMessage_res) = 10%nat /\
    (forall wg, getMessage wp = Undefined wg -> exec this c w = Undefined wg))
    as (wp & Hrx & Hwi & Hl & Hu).
  { destruct c; try discriminate Hc; cbn [exec];
      try rewrite (forget_ext _ _ _ (idRead_as_genericRead this w));
      unfold moveTimeRead, moveTimeWaitRead, angleOffsetRead, angleLimitRead,
        vinLimitRead, tempMaxLimitRead, tempRead, vinRead, posRead, servoOrMotorModeRead,
        loadOrUnloadRead, ledCtrlRead, ledErrorRead; cbv zeta;
      match goal with |- context [genericRead ?t ?buf ?R] =>
        let Hst := fresh "Hst" in
        explicit_buffer Hr buf Hst;
        eapply read_overruns; [discriminate | exact Hst | exact Hres]
      end. }
  destruct Hlands as [Hw Hk].
  destruct (getMessage_overruns_res wp k b0 b1 b2 len tail) as (w' & Hg); try done;
    [congruence|].
  exists w'. now apply Hu.
Qed.

Lemma reading_calls_overrun_on_a_bad_length_example :
  let w := answering [0x55; 0x55; 1; 8; 28; 1; 2; 3; 4; 5; 6] in
  reachable w /\ lands 0 [0x55; 0x55; 1; 8; 28; 1; 2; 3; 4; 5; 6] (line w) /\
  exists w', exec {| id := 1 |} PosRead w = Undefined w'.
Proof.
  intros w.
  assert (Hr : reachable w) by at_start.
  assert (Hl : lands 0 [0x55; 0x55; 1; 8; 28; 1; 2; 3; 4; 5; 6] (line w)) by at_first_poll.
  split; [exact Hr|]. split; [exact Hl|].
  apply (reading_calls_overrun_on_a_bad_length {| id := 1 |} PosRead w 0
           0x55 0x55 1 8 [28; 1; 2; 3; 4; 5; 6] Hr eq_refl Hl); [right; lia | cbn; lia].
Defined.

(** X4. [genericRead] on the buffer of a reading command [cmd] accepts a
    reply that carries the expected length, the command [cmd] and the
    right checksum, whatever its two header bytes [h0], [h1] and its
    address byte [a] are: it returns [res] holding the reply, after
    sending the request of the command. *)
Theorem genericRead_checks_neither_header_nor_address this buf cmd w k h0 h1 a payload :
  reachable w -> boot_statics buf = template 3 cmd ->
  (length payload <= 4)%nat -> is_byte a -> Forall is_byte payload ->
  lands k (h0 :: h1 :: a :: 3 + Z.of_nat (length payload) :: cmd :: payload
           ++ [spec_checksum (a :: 3 + Z.of_nat (length payload) :: cmd :: payload)])
        (line w) ->
  exists w' rest,
    genericRead this buf (3 + Z.of_nat (length payload)) w = Done getMessage_res w' /\
    statics w' getMessage_res
    = [u8 h0; u8 h1; a; 3 + Z.of_nat (length payload); cmd] ++ payload ++ rest /\
    written (line w') = written (line w) ++ encode (u8 (id this)) cmd [].
Proof.
  intros Hr Hboot Hp Ha Hpay [Hw Hk].
  destruct (genericRead_accepts this buf (3 + Z.of_nat (length payload)) cmd w k h0 h1 a payload)
    as (w' & Hg & Hres & _ & Hl); try done.
  - now apply reachable_inv.
  - now apply template_command_is_byte with buf.
  - exists w'. eexists. split; [exact Hg|]. split; [exact Hres|]. now rewrite Hl.
Qed.

Lemma genericRead_checks_neither_header_nor_address_example :
  let reply := [0; 0xAA; 9; 4; 34; 1; spec_checksum [9; 4; 34; 1]] in
  let w := answering reply in
  reachable w /\ boot_statics ledCtrlRead_buf = template 3 34 /\ lands 0 reply (line w) /\
  exists w' rest,
    genericRead {| id := 1 |} ledCtrlRead_buf 4 w = Done getMessage_res w' /\
    statics w' getMessage_res = [0; 0xAA; 9; 4; 34] ++ [1] ++ rest /\
    written (line w') = written (line w) ++ encode 1 34 [].
Proof.
  intros reply w.
  assert (Hr : reachable w) by at_start.
  assert (Hl : lands 0 reply (line w)) by at_first_poll.
  split; [exact Hr|]. split; [reflexivity|]. split; [exact Hl|].
  apply (genericRead_checks_neither_header_nor_address {| id := 1 |} ledCtrlRead_buf 34 w 0
           0 0xAA 9 [1] Hr eq_refl); [cbn; lia | in_range | all_bytes | exact Hl].
Defined.

(** X5. [genericRead] on the buffer of a reading command [cmd] throws the
    corrupted-message error on a whole reply whose length byte is not
    [replySize], or whose command byte is not [cmd], or whose last byte is
    not the checksum of the bytes from the address through the payload. *)
Theorem genericRead_rejects_a_corrupted_reply
    this buf replySize cmd w k h0 h1 a len c payload ck :
  reachable w -> boot_statics buf = template 3 cmd ->
  lands k (h0 :: h1 :: a :: len :: c :: payload ++ [ck]) (line w) ->
  len = 3 + Z.of_nat (length payload) -> (length payload <= 4)%nat ->
  is_byte a -> is_byte c -> is_byte ck -> Forall is_byte payload ->
  len <> replySize \/ c <> cmd \/ ck <> spec_checksum (a :: len :: c :: payload) ->
  exists w', genericRead this buf replySize w = Throw CorruptedMessage w'.
Proof.
  intros Hr Hboot [Hwire Hk] HR Hp Ha Hc Hck Hpay Hbad.
  pose proof (reachable_inv w Hr) as Hinv.
  destruct (genericRead_exchange this buf replySize cmd w k h0 h1 a len
              (c :: payload ++ [ck]) [] Hinv Hboot) as (w' & Hres & Hs & Hl & ->); try done.
  - now rewrite app_nil_r.
  - lia.
  - cbn [length]. rewrite length_app. cbn [length]. lia.
  - exists w'.
    destruct (ten_elements _ (inv_res w Hinv))
      as (r0 & r1 & r2 & r3 & r4 & r5 & r6 & r7 & r8 & r9 & Hold).
    rewrite Hres, Hold. clear Hres Hwire.
    destruct payload as [|x0 [|x1 [|x2 [|x3 [|x4 rest]]]]]; try (cbn in Hp; lia);
      bytes_of Hpay;
      match type of HR with _ = ?e =>
        let v := eval vm_compute in e in change e with v in HR end;
      subst len; nat_of_Z; cbn [app drop fmap list_fmap];
      rewrite ?(u8_byte a), ?(u8_byte c), ?(u8_byte ck) by assumption;
      repeat match goal with H : is_byte ?x |- context [u8 ?x] => rewrite (u8_byte x H) end;
      unfold checkMessage; cbn [lookup list_lookup mbind option_bind];
      match goal with |- context [u8 ?n =? replySize] =>
        change (u8 n) with n;
        destruct (Z.eqb_spec n replySize) as [<-|]; cbn [negb]; [|reflexivity]
      end;
      (destruct (Z.eqb_spec c cmd) as [->|]; cbn [negb]; [|reflexivity]);
      nat_of_Z; cbn [lookup list_lookup mbind option_bind];
      [ use_checksum_spec 3 | use_checksum_spec 4 | use_checksum_spec 5
      | use_checksum_spec 6 | use_checksum_spec 7 ];
      nat_of_Z; cbn [summed_part lookup list_lookup take drop mbind option_bind];
      nat_of_Z; cbn [take drop];
      match goal with |- context [ck =? ?s] =>
        destruct (Z.eqb_spec ck s); cbn [negb]; [|reflexivity] end;
      exfalso; destruct Hbad as [?|[?|?]]; congruence.
Qed.

Lemma genericRead_rejects_a_corrupted_reply_example :
  let w := answering [0x55; 0x55; 1; 4; 34; 1; 0xD8] in
  reachable w /\ lands 0 [0x55; 0x55; 1; 4; 34; 1; 0xD8] (line w) /\
  0xD8 <> spec_checksum [1; 4; 34; 1] /\
  exists w', genericRead {| id := 1 |} ledCtrlRead_buf 4 w = Throw CorruptedMessage w'.
Proof.
  intros w.
  assert (Hr : reachable w) by at_start.
  assert (Hl : lands 0 [0x55; 0x55; 1; 4; 34; 1; 0xD8] (line w)) by at_first_poll.
  assert (Hck : 0xD8 <> spec_checksum [1; 4; 34; 1]) by (vm_compute; discriminate).
  split; [exact Hr|]. split; [exact Hl|]. split; [exact Hck|].
  apply (genericRead_rejects_a_corrupted_reply {| id := 1 |} ledCtrlRead_buf 4 34 w 0
           0x55 0x55 1 4 34 [1] 0xD8 Hr eq_refl Hl);
    [reflexivity | cbn; lia | in_range | in_range | in_range | all_bytes | right; right; exact Hck].
Defined.

(** X6. A reading call flushes the receiving side before it sends: its
    outcome, final world included, is the same whatever bytes were waiting
    unread when it was called. *)
Theorem reading_calls_drop_stale_input this c w rx :
  reachable w -> is_read c = true ->
  exec this c (with_unread rx w) = exec this c w.
Proof.
  intros Hr Hc. apply reachable_inv in Hr. destruct w as [st [wr rx0 wi]].
  unfold with_unread. cbn [statics line written wire].
  destruct c; try discriminate Hc; cbn [exec];
    try rewrite !(forget_ext _ _ _ (idRead_as_genericRead _ _));
    unfold forget, moveTimeRead, moveTimeWaitRead, angleOffsetRead, angleLimitRead,
      vinLimitRead, tempMaxLimitRead, tempRead, vinRead, posRead, servoOrMotorModeRead,
      loadOrUnloadRead, ledCtrlRead, ledErrorRead; cbv zeta;
    match goal with |- context [genericRead ?t ?buf ?R] =>
      let Hst := fresh "Hst" in
      explicit_buffer Hr buf Hst; cbn [statics] in Hst;
      unbind; now rewrite (genericRead_flushes t buf R st wr rx rx0 wi _ _ _ _ _ _ _ Hst)
    end.
Qed.

Lemma reading_calls_drop_stale_input_example :
  let w := answering [0x55; 0x55; 1; 4; 34; 0; 0xD8] in
  reachable w /\
  exec {| id := 1 |} LedCtrlRead (with_unread [7; 7; 7; 7; 7] w)
  = exec {| id := 1 |} LedCtrlRead w.
Proof.
  intros w.
  assert (Hr : reachable w) by at_start.
  split; [exact Hr|].
  exact (reading_calls_drop_stale_input {| id := 1 |} LedCtrlRead w [7; 7; 7; 7; 7] Hr eq_refl).
Defined.

(** X7. In a buffer [checkMessage] accepts, changing one byte from the
    address through the checksum (indices 2 to [size + 2]) into another
    byte value makes [checkMessage] reject it; changing a header byte
    (index 0 or 1) or a byte past the checksum changes nothing. *)
Theorem checkMessage_notices_one_changed_byte (buf : Buffer) cmd size (i : nat) v :
  length buf = 10%nat -> 3 <= size <= 7 -> Forall is_byte buf -> is_byte v ->
  checkMessage buf cmd size = Some true ->
  buf !! i <> Some v ->
  ((2 <= i <= Z.to_nat size + 2)%nat ->
   checkMessage (<[i := v]> buf) cmd size = Some false) /\
  ((i < 2)%nat \/ (Z.to_nat size + 2 < i)%nat ->
   checkMessage (<[i := v]> buf) cmd size = Some true).
Proof.
  intros Hlen Hsize Hbytes Hv Hok Hne.
  apply checkMessage_true in Hok as (H3 & H4 & Hl); [|done..].
  assert (Hlen' : length (<[i := v]> buf) = 10%nat) by now rewrite length_insert.
  split; intros Hi.
  - destruct (checkMessage (<[i := v]> buf) cmd size) as [[|]|] eqn:E; [exfalso| done |].
    2:{ destruct (checkMessage_decides (<[i := v]> buf) cmd size Hlen' Hsize)
          as (? & ? & ? & ? & _ & _ & _ & _ & E'). congruence. }
    apply checkMessage_true in E as (H3' & H4' & Hl'); [|done..].
    destruct (decide (i = 3%nat)) as [->|N3].
    { rewrite list_lookup_insert_eq in H3' by lia. congruence. }
    destruct (decide (i = 4%nat)) as [->|N4].
    { rewrite list_lookup_insert_eq in H4' by lia. congruence. }
    destruct (decide (i = Z.to_nat (size + 2))) as [->|Nl].
    { rewrite list_lookup_insert_eq in Hl' by lia. injection Hl' as Hv'.
      rewrite drop_insert_ge, take_insert_ge in Hv' by lia. congruence. }
    rewrite list_lookup_insert_ne in Hl' by done. rewrite Hl in Hl'. injection Hl' as Hl'.
    apply spec_checksum_inj in Hl'.
    rewrite drop_insert_ge, take_insert_lt in Hl' by lia.
    destruct (lookup_lt_is_Some_2 buf i) as [old Hold]; [lia|].
    assert (Hold' : take (Z.to_nat size) (drop 2 buf) !! (i - 2)%nat = Some old).
    { rewrite lookup_take_lt by lia. rewrite lookup_drop. rewrite <- Hold. f_equal. lia. }
    rewrite (sum_insert _ _ _ _ Hold') in Hl'.
    assert (is_byte old) by (eapply (proj1 (Forall_lookup _ _) Hbytes); eauto).
    assert (old <> v) by congruence.
    unfold is_byte in *. Z.div_mod_to_equations. lia.
  - apply checkMessage_true; [done..|].
    rewrite !list_lookup_insert_ne by lia. split; [done|]. split; [done|].
    rewrite Hl. do 2 f_equal.
    destruct Hi as [Hi|Hi].
    + destruct i as [|[|i]]; [| |lia]; destruct buf as [|? [|? ?]]; try discriminate Hlen; done.
    + rewrite drop_insert_ge, take_insert_ge by lia. done.
Qed.

Lemma checkMessage_notices_one_changed_byte_example :
  checkMessage [0x55; 0x55; 1; 5; 28; 0xF4; 0x01; 0xE8; 0; 0] 28 5 = Some true /\
  checkMessage [0x55; 0x55; 1; 5; 28; 0xF5; 0x01; 0xE8; 0; 0] 28 5 = Some false.
Proof.
  assert (Hok : checkMessage [0x55; 0x55; 1; 5; 28; 0xF4; 0x01; 0xE8; 0; 0] 28 5 = Some true)
    by (vm_compute; reflexivity).
  split; [exact Hok|].
  refine (proj1 (checkMessage_notices_one_changed_byte
                   [0x55; 0x55; 1; 5; 28; 0xF4; 0x01; 0xE8; 0; 0] 28 5 5 0xF5
                   eq_refl _ _ _ Hok _) _);
    [lia | all_bytes | in_range | cbn; congruence | cbn; lia].
Defined.

(** * Further properties: the values the reading methods return *)

(** X8. [moveTimeRead] and [moveTimeWaitRead] return the position and the
    time of the reply, each decoded as an unsigned 16-bit little-endian
    value, whatever the address of the reply is. *)
Theorem moveTimeRead_returns_the_pair this w k a p t :
  reachable w -> is_byte a -> is_uint16 p -> is_uint16 t ->
  (lands k (encode a MoveTimeReadId [low_byte p; high_byte p; low_byte t; high_byte t]) (line w) ->
   exists w', moveTimeRead this w = Done {| position := p; time := t |} w') /\
  (lands k (encode a MoveTimeWaitReadId [low_byte p; high_byte p; low_byte t; high_byte t]) (line w) ->
   exists w', moveTimeWaitRead this w = Done {| position := p; time := t |} w').
Proof.
  intros Hr Ha Hp Ht. split; intros Hl.
  - unfold moveTimeRead.
    decode_reply (reading_accepts this) moveTimeRead_buf Hres.
    cbn. rewrite !word_of_uint16 by done. eauto.
  - unfold moveTimeWaitRead.
    decode_reply (reading_accepts this) moveTimeWaitRead_buf Hres.
    cbn. rewrite !word_of_uint16 by done. eauto.
Qed.

Lemma moveTimeRead_returns_the_pair_example :
  let reply := encode 1 MoveTimeReadId [0xF4; 0x01; 0xE8; 0x03] in
  let w := answering reply in
  reachable w /\ lands 0 reply (line w) /\
  exists w', moveTimeRead {| id := 1 |} w = Done {| position := 500; time := 1000 |} w'.
Proof.
  intros reply w.
  assert (Hr : reachable w) by at_start.
  assert (Hl : lands 0 reply (line w)) by at_first_poll.
  split; [exact Hr|]. split; [exact Hl|].
  refine (proj1 (moveTimeRead_returns_the_pair {| id := 1 |} w 0 1 500 1000 Hr _ _ _) Hl);
    in_range.
Defined.

(** X9. [angleLimitRead] and [vinLimitRead] return the two limits of the
    reply, each decoded as a signed 16-bit little-endian value. *)
Theorem limit_reads_return_the_limits this w k a mn mx :
  reachable w -> is_byte a -> is_int16 mn -> is_int16 mx ->
  (lands k (encode a AngleLimitReadId [low_byte mn; high_byte mn; low_byte mx; high_byte mx]) (line w) ->
   exists w', angleLimitRead this w = Done {| minLimit := mn; maxLimit := mx |} w') /\
  (lands k (encode a VinLimitReadId [low_byte mn; high_byte mn; low_byte mx; high_byte mx]) (line w) ->
   exists w', vinLimitRead this w = Done {| minLimit := mn; maxLimit := mx |} w').
Proof.
  intros Hr Ha Hmn Hmx. split; intros Hl.
  - unfold angleLimitRead.
    decode_reply (reading_accepts this) angleLimitRead_buf Hres.
    cbn. rewrite !word_of_int16 by done. eauto.
  - unfold vinLimitRead.
    decode_reply (reading_accepts this) vinLimitRead_buf Hres.
    cbn. rewrite !word_of_int16 by done. eauto.
Qed.

Lemma limit_reads_return_the_limits_example :
  let reply := encode 1 VinLimitReadId [0x94; 0x11; 0xE0; 0x2E] in
  let w := answering reply in
  reachable w /\ lands 0 reply (line w) /\
  exists w', vinLimitRead {| id := 1 |} w = Done {| minLimit := 4500; maxLimit := 12000 |} w'.
Proof.
  intros reply w.
  assert (Hr : reachable w) by at_start.
  assert (Hl : lands 0 reply (line w)) by at_first_poll.
  split; [exact Hr|]. split; [exact Hl|].
  refine (proj2 (limit_reads_return_the_limits {| id := 1 |} w 0 1 4500 12000 Hr _ _ _) Hl);
    in_range.
Defined.

(** X10. [vinRead] decodes the two payload bytes as an unsigned 16-bit
    value, [posRead] as a signed one. *)
Theorem vinRead_is_unsigned_posRead_is_signed this w k a :
  reachable w -> is_byte a ->
  (forall v, is_uint16 v ->
     lands k (encode a VInReadId [low_byte v; high_byte v]) (line w) ->
     exists w', vinRead this w = Done v w') /\
  (forall p, is_int16 p ->
     lands k (encode a posReadId [low_byte p; high_byte p]) (line w) ->
     exists w', posRead this w = Done p w').
Proof.
  intros Hr Ha. split.
  - intros v Hv Hl. unfold vinRead.
    decode_reply (reading_accepts this) vinRead_buf Hres.
    cbn. rewrite !word_of_uint16 by done. eauto.
  - intros p Hp Hl. unfold posRead.
    decode_reply (reading_accepts this) posRead_buf Hres.
    cbn. rewrite !word_of_int16 by done. eauto.
Qed.

Lemma vinRead_is_unsigned_posRead_is_signed_example :
  let reply := encode 1 posReadId [0xF6; 0xFF] in
  let w := answering reply in
  reachable w /\ lands 0 reply (line w) /\
  exists w', posRead {| id := 1 |} w = Done (-10) w'.
Proof.
  intros reply w.
  assert (Hr : reachable w) by at_start.
  assert (Hl : lands 0 reply (line w)) by at_first_poll.
  split; [exact Hr|]. split; [exact Hl|].
  refine (proj2 (vinRead_is_unsigned_posRead_is_signed {| id := 1 |} w 0 1 Hr _) (-10) _ Hl);
    in_range.
Defined.

(** X11. [servoOrMotorModeRead] returns the first payload byte as the mode
    and the last two as a signed 16-bit speed; the second payload byte is
    not looked at. *)
Theorem servoOrMotorModeRead_returns_mode_and_speed this w k a m reserved s :
  reachable w -> is_byte a -> is_byte m -> is_byte reserved -> is_int16 s ->
  lands k (encode a servoOrMotorModeReadId [m; reserved; low_byte s; high_byte s]) (line w) ->
  exists w', servoOrMotorModeRead this w = Done {| mode := Mode.of_u8 m; speed := s |} w'.
Proof.
  intros Hr Ha Hm Hrsv Hs Hl. unfold servoOrMotorModeRead.
  decode_reply (reading_accepts this) servoOrMotorModeRead_buf Hres.
  cbn. rewrite !word_of_int16 by done. eauto.
Qed.

Lemma servoOrMotorModeRead_returns_mode_and_speed_example :
  let reply := encode 1 servoOrMotorModeReadId [1; 0x77; 0x18; 0xFC] in
  let w := answering reply in
  reachable w /\ lands 0 reply (line w) /\
  exists w', servoOrMotorModeRead {| id := 1 |} w
             = Done {| mode := Mode.of_u8 1; speed := -1000 |} w'.
Proof.
  intros reply w.
  assert (Hr : reachable w) by at_start.
  assert (Hl : lands 0 reply (line w)) by at_first_poll.
  split; [exact Hr|]. split; [exact Hl|].
  refine (servoOrMotorModeRead_returns_mode_and_speed {| id := 1 |} w 0 1 1 0x77 (-1000)
            Hr _ _ _ _ Hl); in_range.
Defined.

(** X12. [idRead], [tempMaxLimitRead] and [tempRead] return the payload
    byte of the reply, and [loadOrUnloadRead] returns it as a [LoadMode]. *)
Theorem byte_reads_return_the_payload_byte this w k a b :
  reachable w -> is_byte a -> is_byte b ->
  (lands k (encode a idReadId [b]) (line w) ->
   exists w', idRead this w = Done b w') /\
  (lands k (encode a TempMaxLimitReadId [b]) (line w) ->
   exists w', tempMaxLimitRead this w = Done b w') /\
  (lands k (encode a TempReadId [b]) (line w) ->
   exists w', tempRead this w = Done b w') /\
  (lands k (encode a LoadOrUnloadReadId [b]) (line w) ->
   exists w', loadOrUnloadRead this w = Done (LoadMode.of_u8 b) w').
Proof.
  intros Hr Ha Hb. repeat split; intros Hl.
  - rewrite idRead_as_genericRead.
    decode_reply (reading_accepts {| id := 254 |}) idRead_buf Hres.
    eexists. prim Hres.
  - unfold tempMaxLimitRead.
    decode_reply (reading_accepts this) tempMaxLimitRead_buf Hres.
    eexists. prim Hres.
  - unfold tempRead.
    decode_reply (reading_accepts this) tempRead_buf Hres.
    eexists. prim Hres.
  - unfold loadOrUnloadRead.
    decode_reply (reading_accepts this) loadOrUnloadRead_buf Hres. cbn. eauto.
Qed.

Lemma byte_reads_return_the_payload_byte_example :
  let reply := encode 1 TempReadId [37] in
  let w := answering reply in
  reachable w /\ lands 0 reply (line w) /\
  exists w', tempRead {| id := 1 |} w = Done 37 w'.
Proof.
  intros reply w.
  assert (Hr : reachable w) by at_start.
  assert (Hl : lands 0 reply (line w)) by at_first_poll.
  split; [exact Hr|]. split; [exact Hl|].
  refine (proj1 (proj2 (proj2 (byte_reads_return_the_payload_byte {| id := 1 |} w 0 1 37
                                  Hr _ _))) Hl); in_range.
Defined.

(** X13. [angleOffsetRead] returns the payload byte as a signed 8-bit
    value: the byte of a negative offset reads back as that offset. *)
Theorem angleOffsetRead_returns_the_signed_offset this w k a d :
  reachable w -> is_byte a -> is_int8 d ->
  lands k (encode a AngleOffsetReadId [u8 (u8 d)]) (line w) ->
  exists w', angleOffsetRead this w = Done d w'.
Proof.
  intros Hr Ha Hd Hl. unfold angleOffsetRead.
  decode_reply (reading_accepts this) angleOffsetRead_buf Hres.
  cbn. rewrite u8_idem, i8_u8 by done. eauto.
Qed.

Lemma angleOffsetRead_returns_the_signed_offset_example :
  let reply := encode 1 AngleOffsetReadId [0xFB] in
  let w := answering reply in
  reachable w /\ lands 0 reply (line w) /\
  exists w', angleOffsetRead {| id := 1 |} w = Done (-5) w'.
Proof.
  intros reply w.
  assert (Hr : reachable w) by at_start.
  assert (Hl : lands 0 reply (line w)) by at_first_poll.
  split; [exact Hr|]. split; [exact Hl|].
  refine (angleOffsetRead_returns_the_signed_offset {| id := 1 |} w 0 1 (-5) Hr _ _ Hl);
    in_range.
Defined.

(** X14. [ledErrorRead] returns bits 0, 1 and 2 of the payload byte as
    over-temperature, over-voltage and stall, and ignores the other bits;
    the byte [ledErrorWrite] builds from three flags reads back as these
    flags. *)
Theorem ledErrorRead_returns_the_three_bits this w k a :
  reachable w -> is_byte a ->
  (forall b, is_byte b ->
     lands k (encode a LedErrorReadId [b]) (line w) ->
     exists w', ledErrorRead this w
       = Done {| overTemperature := Z.testbit b 0; overVoltage := Z.testbit b 1;
                 stall := Z.testbit b 2 |} w') /\
  (forall ot ov st,
     lands k (encode a LedErrorReadId [Z.b2z ot + 2 * Z.b2z ov + 4 * Z.b2z st]) (line w) ->
     exists w', ledErrorRead this w
       = Done {| overTemperature := ot; overVoltage := ov; stall := st |} w').
Proof.
  intros Hr Ha.
  assert (Hbits : forall b, is_byte b ->
     lands k (encode a LedErrorReadId [b]) (line w) ->
     exists w', ledErrorRead this w
       = Done {| overTemperature := Z.testbit b 0; overVoltage := Z.testbit b 1;
                 stall := Z.testbit b 2 |} w').
  { intros b Hb Hl. unfold ledErrorRead.
    decode_reply (reading_accepts this) ledErrorRead_buf Hres.
    cbn. change 1 with (2 ^ 0). change 2 with (2 ^ 1) at 2. change 4 with (2 ^ 2).
    rewrite !to_bool_land_bit by lia. eauto. }
  split; [exact Hbits|].
  intros ot ov st Hl.
  assert (Hb : is_byte (Z.b2z ot + 2 * Z.b2z ov + 4 * Z.b2z st))
    by (unfold is_byte, Z.b2z; destruct ot, ov, st; lia).
  destruct (Hbits _ Hb Hl) as (w' & ->).
  exists w'. now destruct ot, ov, st.
Qed.

Lemma ledErrorRead_returns_the_three_bits_example :
  let reply := encode 1 LedErrorReadId [5] in
  let w := answering reply in
  reachable w /\ lands 0 reply (line w) /\
  exists w', ledErrorRead {| id := 1 |} w
             = Done {| overTemperature := true; overVoltage := false; stall := true |} w'.
Proof.
  intros reply w.
  assert (Hr : reachable w) by at_start.
  assert (Hl : lands 0 reply (line w)) by at_first_poll.
  split; [exact Hr|]. split; [exact Hl|].
  refine (proj2 (ledErrorRead_returns_the_three_bits {| id := 1 |} w 0 1 Hr _)
            true false true Hl); in_range.
Defined.

(** * Further properties: sending *)

(** X15. In every reachable world [moveTimeWrite] and [moveTimeWaitWrite]
    return and send the position clamped to [0, 1000] and the time as it
    is, each as two little-endian bytes. *)
Theorem moveTimeWrite_clamps_the_position this p t w :
  reachable w -> is_int16 p -> is_uint16 t ->
  let p' := clamp 0 1000 p in
  (exists w', moveTimeWrite this p t w = Done tt w') /\
  sent (moveTimeWrite this p t) w
    = encode (u8 (id this)) MoveTimeWriteId [low_byte p'; high_byte p'; low_byte t; high_byte t] /\
  (exists w', moveTimeWaitWrite this p t w = Done tt w') /\
  sent (moveTimeWaitWrite this p t) w
    = encode (u8 (id this)) MoveTimeWaitWriteId [low_byte p'; high_byte p'; low_byte t; high_byte t] /\
  (p < 0 -> p' = 0) /\ (0 <= p <= 1000 -> p' = p) /\ (1000 < p -> p' = 1000).
Proof.
  intros Hr Hp Ht p'.
  destruct (write_sends this (MoveTimeWrite p t) w Hr eq_refl) as (w1 & Hw1 & Hs1).
  destruct (write_sends this (MoveTimeWaitWrite p t) w Hr eq_refl) as (w2 & Hw2 & Hs2).
  cbn [exec request] in *.
  rewrite (low_byte_uint16 t), (high_byte_uint16 t Ht) in Hs1, Hs2.
  repeat split; eauto; subst p'; unfold clamp; lia.
Qed.

Lemma moveTimeWrite_clamps_the_position_example :
  reachable (boot quiet) /\
  sent (moveTimeWrite {| id := 1 |} 1500 1000) (boot quiet)
  = encode 1 MoveTimeWriteId [0xE8; 0x03; 0xE8; 0x03] /\
  sent (moveTimeWaitWrite {| id := 1 |} (-3) 1000) (boot quiet)
  = encode 1 MoveTimeWaitWriteId [0; 0; 0xE8; 0x03].
Proof.
  assert (Hr : reachable (boot quiet)) by at_start.
  split; [exact Hr|]. split.
  - refine (proj1 (proj2 (moveTimeWrite_clamps_the_position {| id := 1 |} 1500 1000
                            (boot quiet) Hr _ _))); in_range.
  - refine (proj1 (proj2 (proj2 (proj2 (moveTimeWrite_clamps_the_position {| id := 1 |} (-3) 1000
                                          (boot quiet) Hr _ _))))); in_range.
Defined.

(** X16. In every reachable world [vinLimitWrite] returns and sends a
    lower limit in [4500, 11999] and an upper limit between the lower
    limit plus one and 12000, whatever the arguments are. *)
Theorem vinLimitWrite_clamps_the_limits this mn mx w :
  reachable w -> is_int16 mn -> is_int16 mx ->
  let mn' := clamp 4500 11999 mn in
  let mx' := Z.max (Z.min mx 12000) (mn' + 1) in
  (exists w', vinLimitWrite this mn mx w = Done tt w') /\
  sent (vinLimitWrite this mn mx) w
    = encode (u8 (id this)) VinLimitWriteId [low_byte mn'; high_byte mn'; low_byte mx'; high_byte mx'] /\
  4500 <= mn' <= 11999 /\ mn' + 1 <= mx' <= 12000.
Proof.
  intros Hr Hmn Hmx mn' mx'.
  destruct (write_sends this (VinLimitWrite mn mx) w Hr eq_refl) as (w1 & Hw1 & Hs1).
  cbn [exec request] in *.
  rewrite (i16_small (clamp 4500 11999 mn + 1)) in Hs1 by (unfold is_int16, clamp; lia).
  repeat split; eauto; subst mx' mn'; unfold clamp; lia.
Qed.

Lemma vinLimitWrite_clamps_the_limits_example :
  reachable (boot quiet) /\
  sent (vinLimitWrite {| id := 1 |} 20000 0) (boot quiet)
  = encode 1 VinLimitWriteId [low_byte 11999; high_byte 11999; low_byte 12000; high_byte 12000].
Proof.
  assert (Hr : reachable (boot quiet)) by at_start.
  split; [exact Hr|].
  refine (proj1 (proj2 (vinLimitWrite_clamps_the_limits {| id := 1 |} 20000 0
                          (boot quiet) Hr _ _))); in_range.
Defined.

(** X17. In every reachable world [tempMaxLimitWrite] returns and sends
    the temperature clamped to [50, 100]. *)
Theorem tempMaxLimitWrite_clamps_the_temperature this maxTemp w :
  reachable w -> is_byte maxTemp ->
  let t' := clamp 50 100 maxTemp in
  (exists w', tempMaxLimitWrite this maxTemp w = Done tt w') /\
  sent (tempMaxLimitWrite this maxTemp) w = encode (u8 (id this)) TempMaxLimitWriteId [t'] /\
  50 <= t' <= 100 /\ (50 <= maxTemp <= 100 -> t' = maxTemp).
Proof.
  intros Hr Ht t'.
  destruct (write_sends this (TempMaxLimitWrite maxTemp) w Hr eq_refl) as (w1 & Hw1 & Hs1).
  cbn [exec request] in *.
  rewrite (u8_byte (clamp 50 100 maxTemp)) in Hs1 by (unfold is_byte, clamp; lia).
  repeat split; eauto; subst t'; unfold clamp; lia.
Qed.

Lemma tempMaxLimitWrite_clamps_the_temperature_example :
  reachable (boot quiet) /\
  sent (tempMaxLimitWrite {| id := 1 |} 20) (boot quiet) = encode 1 TempMaxLimitWriteId [50].
Proof.
  assert (Hr : reachable (boot quiet)) by at_start.
  split; [exact Hr|].
  refine (proj1 (proj2 (tempMaxLimitWrite_clamps_the_temperature {| id := 1 |} 20
                          (boot quiet) Hr _))); in_range.
Defined.

(** X18. [moveStart] and [moveStop] never store the address of the object:
    whatever servo the object is bound to, they send the frames
    [55 55 00 03 0B F1] and [55 55 00 03 0C F0], addressed to servo 0. *)
Theorem moveStart_and_moveStop_address_servo_0 this w :
  reachable w ->
  (exists w', moveStart this w = Done tt w') /\
  sent (moveStart this) w = [0x55; 0x55; 0x00; 0x03; 0x0B; 0xF1] /\
  (exists w', moveStop this w = Done tt w') /\
  sent (moveStop this) w = [0x55; 0x55; 0x00; 0x03; 0x0C; 0xF0].
Proof.
  intros Hr.
  destruct (write_sends this MoveStart w Hr eq_refl) as (w1 & Hw1 & Hs1).
  destruct (write_sends this MoveStop w Hr eq_refl) as (w2 & Hw2 & Hs2).
  cbn [exec request] in *. repeat split; eauto.
Qed.

Lemma moveStart_and_moveStop_address_servo_0_bound_to_7 :
  reachable (boot quiet) /\
  sent (moveStart {| id := 7 |}) (boot quiet) = [0x55; 0x55; 0x00; 0x03; 0x0B; 0xF1] /\
  sent (moveStop {| id := 7 |}) (boot quiet) = [0x55; 0x55; 0x00; 0x03; 0x0C; 0xF0].
Proof.
  assert (Hr : reachable (boot quiet)) by at_start.
  pose proof (moveStart_and_moveStop_address_servo_0 {| id := 7 |} (boot quiet) Hr)
    as (_ & Hstart & _ & Hstop).
  split; [exact Hr|]. split; [exact Hstart | exact Hstop].
Defined.

(** X19. A writing call in a reachable world always returns; it appends its
    request to the bytes written and touches neither the bytes received,
    nor the bytes on their way, nor [res]. *)
Theorem writing_calls_only_write this c w :
  reachable w -> is_read c = false ->
  exists w',
    exec this c w = Done tt w' /\
    written (line w') = written (line w) ++ request this c /\
    rxq (line w') = rxq (line w) /\ wire (line w') = wire (line w) /\
    statics w' getMessage_res = statics w getMessage_res.
Proof.
  intros Hr Hc. apply reachable_inv in Hr.
  destruct (write_call_emitted this c w Hr Hc)
    as (buf & f & a & Hne & (w' & Hw' & Hl & Hs & _) & -> & _).
  exists w'. rewrite Hl. cbn. repeat split; auto.
Qed.

Lemma writing_calls_only_write_example :
  let w := answering [1; 2; 3] in
  reachable w /\
  exists w',
    exec {| id := 1 |} (IdWrite 2) w = Done tt w' /\
    written (line w') = written (line w) ++ request {| id := 1 |} (IdWrite 2) /\
    rxq (line w') = rxq (line w) /\ wire (line w') = wire (line w) /\
    statics w' getMessage_res = statics w getMessage_res.
Proof.
  intros w.
  assert (Hr : reachable w) by at_start.
  split; [exact Hr|].
  exact (writing_calls_only_write {| id := 1 |} (IdWrite 2) w Hr eq_refl).
Defined.

(** X20. Whatever calls were made, every static buffer still has its ten
    elements, and every request buffer still starts with [55 55] and holds
    the length and the command it was declared with. *)
Theorem static_buffers_keep_their_frame w s :
  reachable w ->
  length (statics w s) = 10%nat /\
  (s <> getMessage_res ->
   take 2 (statics w s) = [0x55; 0x55] /\
   statics w s !! 3%nat = boot_statics s !! 3%nat /\
   statics w s !! 4%nat = boot_statics s !! 4%nat).
Proof.
  intros Hr. apply reachable_inv in Hr. split.
  - specialize (Hr s). unfold shaped in Hr. apply andb_true_iff in Hr as [Hl _].
    now apply Nat.eqb_eq in Hl.
  - intros Hne.
    destruct (shaped_explicit s _ (Hr s) Hne)
      as (x & p5 & p6 & p7 & p8 & p9 & sz & c & -> & -> & _).
    now repeat split.
Qed.

Lemma static_buffers_keep_their_frame_after_move :
  reachable after_move /\
  length (statics after_move moveTimeWrite_buf) = 10%nat /\
  take 2 (statics after_move moveTimeWrite_buf) = [0x55; 0x55] /\
  statics after_move moveTimeWrite_buf !! 3%nat = Some MoveTimeWriteSize /\
  statics after_move moveTimeWrite_buf !! 4%nat = Some MoveTimeWriteId.
Proof.
  assert (Hr : reachable after_move).
  { exists [({| id := 1 |}, MoveTimeWrite 500 1000)], quiet. vm_compute. reflexivity. }
  pose proof (static_buffers_keep_their_frame after_move moveTimeWrite_buf Hr) as [Hlen Hframe].
  split; [exact Hr|]. split; [exact Hlen|]. apply Hframe. discriminate.
Defined.

(** * Further properties: a value written and read back *)

(** X21. When the servo answers [moveTimeRead] with the payload that
    [moveTimeWrite] has just sent, the read returns the position clamped
    to [0, 1000] and the time that was written; the same holds for
    [moveTimeWaitWrite] and [moveTimeWaitRead].  The reading object need
    not be the writing one. *)
Theorem position_and_time_written_are_read_back this that w k a p t payload :
  reachable w -> is_byte a -> is_int16 p -> is_uint16 t ->
  (sent (moveTimeWrite this p t) w = encode (u8 (id this)) MoveTimeWriteId payload ->
   lands k (encode a MoveTimeReadId payload) (line w) ->
   exists w1 w2,
     moveTimeWrite this p t w = Done tt w1 /\
     moveTimeRead that w1 = Done {| position := clamp 0 1000 p; time := t |} w2) /\
  (sent (moveTimeWaitWrite this p t) w = encode (u8 (id this)) MoveTimeWaitWriteId payload ->
   lands k (encode a MoveTimeWaitReadId payload) (line w) ->
   exists w1 w2,
     moveTimeWaitWrite this p t w = Done tt w1 /\
     moveTimeWaitRead that w1 = Done {| position := clamp 0 1000 p; time := t |} w2).
Proof.
  intros Hr Ha Hp Ht.
  assert (Hc : is_uint16 (clamp 0 1000 p)) by (unfold is_uint16, clamp; lia).
  split; intros Hs Hl.
  - after_writing w this (MoveTimeWrite p t) Hl Hs w1.
    rewrite (low_byte_uint16 t), (high_byte_uint16 t Ht) in *.
    unfold moveTimeRead.
    decode_reply (reading_accepts that) moveTimeRead_buf Hres.
    cbn. change (u8 (getLowByte (u16 ?x))) with (low_byte x).
    change (u8 (getHighByte (u16 ?x))) with (high_byte x).
    rewrite !word_of_uint16 by done. eauto.
  - after_writing w this (MoveTimeWaitWrite p t) Hl Hs w1.
    rewrite (low_byte_uint16 t), (high_byte_uint16 t Ht) in *.
    unfold moveTimeWaitRead.
    decode_reply (reading_accepts that) moveTimeWaitRead_buf Hres.
    cbn. change (u8 (getLowByte (u16 ?x))) with (low_byte x).
    change (u8 (getHighByte (u16 ?x))) with (high_byte x).
    rewrite !word_of_uint16 by done. eauto.
Qed.

Lemma position_and_time_written_are_read_back_example :
  let payload := [0xE8; 0x03; 0xE8; 0x03] in
  let w := answering (encode 1 MoveTimeReadId payload) in
  reachable w /\
  sent (moveTimeWrite {| id := 1 |} 1500 1000) w = encode 1 MoveTimeWriteId payload /\
  lands 0 (encode 1 MoveTimeReadId payload) (line w) /\
  exists w1 w2,
    moveTimeWrite {| id := 1 |} 1500 1000 w = Done tt w1 /\
    moveTimeRead {| id := 1 |} w1 = Done {| position := 1000; time := 1000 |} w2.
Proof.
  intros payload w.
  assert (Hr : reachable w) by at_start.
  assert (Hs : sent (moveTimeWrite {| id := 1 |} 1500 1000) w
               = encode (u8 (id {| id := 1 |})) MoveTimeWriteId payload)
    by (vm_compute; reflexivity).
  assert (Hl : lands 0 (encode 1 MoveTimeReadId payload) (line w)) by at_first_poll.
  split; [exact Hr|]. split; [exact Hs|]. split; [exact Hl|].
  refine (proj1 (position_and_time_written_are_read_back {| id := 1 |} {| id := 1 |} w 0 1
                   1500 1000 payload Hr _ _ _) Hs Hl); in_range.
Defined.

(** X22. When the servo answers with the payload that was just sent,
    [angleLimitRead] returns the clamped limits of [angleLimitWrite] and
    [vinLimitRead] the clamped limits of [vinLimitWrite]. *)
Theorem limits_written_are_read_back this that w k a mn mx payload :
  reachable w -> is_byte a -> is_int16 mn -> is_int16 mx ->
  (sent (angleLimitWrite this mn mx) w = encode (u8 (id this)) AngleLimitWriteId payload ->
   lands k (encode a AngleLimitReadId payload) (line w) ->
   exists w1 w2,
     angleLimitWrite this mn mx w = Done tt w1 /\
     angleLimitRead that w1
     = Done {| minLimit := clamp 0 999 mn;
               maxLimit := Z.max (Z.min mx 1000) (clamp 0 999 mn + 1) |} w2) /\
  (sent (vinLimitWrite this mn mx) w = encode (u8 (id this)) VinLimitWriteId payload ->
   lands k (encode a VinLimitReadId payload) (line w) ->
   exists w1 w2,
     vinLimitWrite this mn mx w = Done tt w1 /\
     vinLimitRead that w1
     = Done {| minLimit := clamp 4500 11999 mn;
               maxLimit := Z.max (Z.min mx 12000) (clamp 4500 11999 mn + 1) |} w2).
Proof.
  intros Hr Ha Hmn Hmx. split; intros Hs Hl.
  - after_writing w this (AngleLimitWrite mn mx) Hl Hs w1.
    rewrite (i16_small (clamp 0 999 mn + 1)) in * by (unfold is_int16, clamp; lia).
    fold_bytes. unfold angleLimitRead.
    decode_reply (reading_accepts that) angleLimitRead_buf Hres.
    cbn. rewrite !word_of_int16 by (unfold is_int16, clamp in *; lia). eauto.
  - after_writing w this (VinLimitWrite mn mx) Hl Hs w1.
    rewrite (i16_small (clamp 4500 11999 mn + 1)) in * by (unfold is_int16, clamp; lia).
    fold_bytes. unfold vinLimitRead.
    decode_reply (reading_accepts that) vinLimitRead_buf Hres.
    cbn. rewrite !word_of_int16 by (unfold is_int16, clamp in *; lia). eauto.
Qed.

Lemma limits_written_are_read_back_example :
  let payload := [0; 0; 1; 0] in
  let w := answering (encode 1 AngleLimitReadId payload) in
  reachable w /\
  sent (angleLimitWrite {| id := 1 |} (-20) (-7)) w = encode 1 AngleLimitWriteId payload /\
  lands 0 (encode 1 AngleLimitReadId payload) (line w) /\
  exists w1 w2,
    angleLimitWrite {| id := 1 |} (-20) (-7) w = Done tt w1 /\
    angleLimitRead {| id := 1 |} w1 = Done {| minLimit := 0; maxLimit := 1 |} w2.
Proof.
  intros payload w.
  assert (Hr : reachable w) by at_start.
  assert (Hs : sent (angleLimitWrite {| id := 1 |} (-20) (-7)) w
               = encode (u8 (id {| id := 1 |})) AngleLimitWriteId payload)
    by (vm_compute; reflexivity).
  assert (Hl : lands 0 (encode 1 AngleLimitReadId payload) (line w)) by at_first_poll.
  split; [exact Hr|]. split; [exact Hs|]. split; [exact Hl|].
  refine (proj1 (limits_written_are_read_back {| id := 1 |} {| id := 1 |} w 0 1
                   (-20) (-7) payload Hr _ _ _) Hs Hl); in_range.
Defined.

(** X23. When the servo answers with the payload that was just sent,
    [servoOrMotorModeRead] returns the mode and the clamped speed of
    [servoOrMotorModeWrite], and [loadOrUnloadRead] the mode of
    [loadOrUnloadWrite]. *)
Theorem modes_written_are_read_back this that w k a payload :
  reachable w -> is_byte a ->
  (forall m s, is_byte (Mode.to_u8 m) -> is_int16 s ->
   sent (servoOrMotorModeWrite this m s) w
   = encode (u8 (id this)) ServoOrMotorModeWriteId payload ->
   lands k (encode a servoOrMotorModeReadId payload) (line w) ->
   exists w1 w2,
     servoOrMotorModeWrite this m s w = Done tt w1 /\
     servoOrMotorModeRead that w1 = Done {| mode := m; speed := clamp (-1000) 1000 s |} w2) /\
  (forall m, is_byte (LoadMode.to_u8 m) ->
   sent (loadOrUnloadWrite this m) w = encode (u8 (id this)) LoadOrUnloadWriteId payload ->
   lands k (encode a LoadOrUnloadReadId payload) (line w) ->
   exists w1 w2,
     loadOrUnloadWrite this m w = Done tt w1 /\ loadOrUnloadRead that w1 = Done m w2).
Proof.
  intros Hr Ha. split.
  - intros [m] s Hm Hs' Hs Hl. cbn [Mode.to_u8] in *.
    after_writing w this (ServoOrMotorModeWrite (Mode.of_u8 m) s) Hl Hs w1.
    cbn [Mode.to_u8] in *. rewrite (u8_byte m) in * by done.
    fold_bytes. unfold servoOrMotorModeRead.
    assert (is_byte 0) by (unfold is_byte; lia).
    decode_reply (reading_accepts that) servoOrMotorModeRead_buf Hres.
    cbn. rewrite !word_of_int16 by (unfold is_int16, clamp in *; lia). eauto.
  - intros [m] Hm Hs Hl. cbn [LoadMode.to_u8] in *.
    after_writing w this (LoadOrUnloadWrite (LoadMode.of_u8 m)) Hl Hs w1.
    cbn [LoadMode.to_u8] in *. rewrite (u8_byte m) in * by done.
    unfold loadOrUnloadRead.
    decode_reply (reading_accepts that) loadOrUnloadRead_buf Hres. cbn. eauto.
Qed.

Lemma modes_written_are_read_back_example :
  let payload := [1; 0; 0x18; 0xFC] in
  let w := answering (encode 1 servoOrMotorModeReadId payload) in
  reachable w /\
  sent (servoOrMotorModeWrite {| id := 1 |} Mode.Motor (-2000)) w
  = encode 1 ServoOrMotorModeWriteId payload /\
  lands 0 (encode 1 servoOrMotorModeReadId payload) (line w) /\
  exists w1 w2,
    servoOrMotorModeWrite {| id := 1 |} Mode.Motor (-2000) w = Done tt w1 /\
    servoOrMotorModeRead {| id := 1 |} w1 = Done {| mode := Mode.Motor; speed := -1000 |} w2.
Proof.
  intros payload w.
  assert (Hr : reachable w) by at_start.
  assert (Hs : sent (servoOrMotorModeWrite {| id := 1 |} Mode.Motor (-2000)) w
               = encode (u8 (id {| id := 1 |})) ServoOrMotorModeWriteId payload)
    by (vm_compute; reflexivity).
  assert (Hl : lands 0 (encode 1 servoOrMotorModeReadId payload) (line w)) by at_first_poll.
  split; [exact Hr|]. split; [exact Hs|]. split; [exact Hl|].
  refine (proj1 (modes_written_are_read_back {| id := 1 |} {| id := 1 |} w 0 1 payload Hr _)
            Mode.Motor (-2000) _ _ Hs Hl); first [in_range | vm_compute; split; discriminate].
Defined.

(** X24. When the servo answers with the payload that was just sent,
    [tempMaxLimitRead] returns the temperature of [tempMaxLimitWrite]
    clamped to [50, 100], and [idRead] the id of [idWrite]. *)
Theorem bytes_written_are_read_back this that w k a b payload :
  reachable w -> is_byte a -> is_byte b ->
  (sent (tempMaxLimitWrite this b) w = encode (u8 (id this)) TempMaxLimitWriteId payload ->
   lands k (encode a TempMaxLimitReadId payload) (line w) ->
   exists w1 w2,
     tempMaxLimitWrite this b w = Done tt w1 /\
     tempMaxLimitRead that w1 = Done (clamp 50 100 b) w2) /\
  (sent (idWrite this b) w = encode (u8 (id this)) IdWriteId payload ->
   lands k (encode a idReadId payload) (line w) ->
   exists w1 w2, idWrite this b w = Done tt w1 /\ idRead that w1 = Done b w2).
Proof.
  intros Hr Ha Hb. split; intros Hs Hl.
  - after_writing w this (TempMaxLimitWrite b) Hl Hs w1.
    assert (Hc : is_byte (clamp 50 100 b)) by (unfold is_byte, clamp in *; lia).
    rewrite (u8_byte _ Hc) in *. unfold tempMaxLimitRead.
    decode_reply (reading_accepts that) tempMaxLimitRead_buf Hres.
    eexists. split; [reflexivity|]. prim Hres.
  - after_writing w this (IdWrite b) Hl Hs w1.
    rewrite (u8_byte b) in * by done.
    rewrite idRead_as_genericRead.
    decode_reply (reading_accepts {| id := 254 |}) idRead_buf Hres.
    eexists. split; [reflexivity|]. prim Hres.
Qed.

Lemma bytes_written_are_read_back_example :
  let w := answering (encode 254 idReadId [9]) in
  reachable w /\
  sent (idWrite {| id := 1 |} 9) w = encode 1 IdWriteId [9] /\
  lands 0 (encode 254 idReadId [9]) (line w) /\
  exists w1 w2,
    idWrite {| id := 1 |} 9 w = Done tt w1 /\ idRead {| id := 1 |} w1 = Done 9 w2.
Proof.
  intros w.
  assert (Hr : reachable w) by at_start.
  assert (Hs : sent (idWrite {| id := 1 |} 9) w
               = encode (u8 (id {| id := 1 |})) IdWriteId [9])
    by (vm_compute; reflexivity).
  assert (Hl : lands 0 (encode 254 idReadId [9]) (line w)) by at_first_poll.
  split; [exact Hr|]. split; [exact Hs|]. split; [exact Hl|].
  refine (proj2 (bytes_written_are_read_back {| id := 1 |} {| id := 1 |} w 0 254 9 [9]
                   Hr _ _) Hs Hl); in_range.
Defined.

(** X25. When the servo answers with the payload that was just sent,
    [angleOffsetRead] returns the signed offset of [angleOffsetAdjust],
    negative ones included, and [ledErrorRead] the three flags of
    [ledErrorWrite]. *)
Theorem offset_and_flags_written_are_read_back this that w k a payload :
  reachable w -> is_byte a ->
  (forall d, is_int8 d ->
   sent (angleOffsetAdjust this d) w = encode (u8 (id this)) AngleOffsetAdjustId payload ->
   lands k (encode a AngleOffsetReadId payload) (line w) ->
   exists w1 w2,
     angleOffsetAdjust this d w = Done tt w1 /\ angleOffsetRead that w1 = Done d w2) /\
  (forall ot ov st,
   sent (ledErrorWrite this ot ov st) w = encode (u8 (id this)) LedErrorWriteId payload ->
   lands k (encode a LedErrorReadId payload) (line w) ->
   exists w1 w2,
     ledErrorWrite this ot ov st w = Done tt w1 /\
     ledErrorRead that w1
     = Done {| overTemperature := ot; overVoltage := ov; stall := st |} w2).
Proof.
  intros Hr Ha. split.
  - intros d Hd Hs Hl.
    after_writing w this (AngleOffsetAdjust d) Hl Hs w1.
    unfold angleOffsetRead.
    decode_reply (reading_accepts that) angleOffsetRead_buf Hres.
    cbn. rewrite u8_idem, i8_u8 by done. eauto.
  - intros ot ov st Hs Hl.
    after_writing w this (LedErrorWrite ot ov st) Hl Hs w1.
    unfold ledErrorRead.
    assert (is_byte (Z.b2z ot + 2 * Z.b2z ov + 4 * Z.b2z st))
      by (unfold is_byte; destruct ot, ov, st; cbn; lia).
    decode_reply (reading_accepts that) ledErrorRead_buf Hres.
    cbn. destruct ot, ov, st; eauto.
Qed.

Lemma offset_and_flags_written_are_read_back_example :
  let w := answering (encode 1 AngleOffsetReadId [0xFB]) in
  reachable w /\
  sent (angleOffsetAdjust {| id := 1 |} (-5)) w = encode 1 AngleOffsetAdjustId [0xFB] /\
  lands 0 (encode 1 AngleOffsetReadId [0xFB]) (line w) /\
  exists w1 w2,
    angleOffsetAdjust {| id := 1 |} (-5) w = Done tt w1 /\
    angleOffsetRead {| id := 1 |} w1 = Done (-5) w2.
Proof.
  intros w.
  assert (Hr : reachable w) by at_start.
  assert (Hs : sent (angleOffsetAdjust {| id := 1 |} (-5)) w
               = encode (u8 (id {| id := 1 |})) AngleOffsetAdjustId [0xFB])
    by (vm_compute; reflexivity).
  assert (Hl : lands 0 (encode 1 AngleOffsetReadId [0xFB]) (line w)) by at_first_poll.
  split; [exact Hr|]. split; [exact Hs|]. split; [exact Hl|].
  refine (proj1 (offset_and_flags_written_are_read_back {| id := 1 |} {| id := 1 |} w 0 1
                   [0xFB] Hr _) (-5) _ Hs Hl); in_range.
Defined.
